(** * Dialog instruction compilation and error reporting of the Botpress core

    A shallow embedding of [InstructionFactory] (dialog/instruction/factory)
    and, from core/botpress.ts, of the dialog wiring done by
    [Botpress.initializeServices] and of the start-up methods
    [checkJwtSecret], [deployAssets], [discoverBots] and [startServer],
    together with the properties the specification states about them and
    further properties read off the code.

    Flow and node documents are plain JSON data handled by untyped
    JavaScript: the factory receives [node] and [flow] without any type
    annotation and reads them with lodash's [_.get], [||], spread and
    [Array.prototype.map].  The embedding therefore works on dynamic
    JavaScript values and keeps the run-time type errors the code can
    raise. *)

From stdpp Require Import base option list strings gmap.
From Stdlib Require Import ZArith Ascii String.

Open Scope string_scope.
Open Scope list_scope.

(** ** JavaScript values

    Documents are JSON: there are no functions, getters, symbols or
    cyclic structures among them.  [VUndefined] is the value of a missing
    property.  Numbers are abstracted to integers: the factory only looks
    at their truthiness, and a JSON document holds no [NaN]. *)

#[local] Set Warnings "-register-all".

Inductive value : Type :=
  | VUndefined
  | VNull
  | VBool (b : bool)
  | VNum (z : Z)
  | VStr (s : string)
  | VArr (xs : list value)
  | VObj (fs : list (string * value)).

(** Run-time errors.  The factory has no [throw] of its own; what it can
    raise are the [TypeError]s of the language.  [Error] stands for the
    errors of collaborators. *)
Inductive error : Type :=
  | TypeError (msg : string)
  | Error (msg : string).

Inductive outcome (A : Type) : Type :=
  | Ok (a : A)
  | Throw (e : error).
Arguments Ok {A} a.
Arguments Throw {A} e.

(** Sequencing: an exception raised by a step skips the steps after it. *)
#[global] Instance outcome_ret : MRet outcome := fun A a => Ok a.
#[global] Instance outcome_bind : MBind outcome := fun A B k m =>
  match m with
  | Ok a => k a
  | Throw e => Throw e
  end.

(** A callback applied to the elements of a list from left to right; the
    first exception ends the traversal. *)
Fixpoint map_outcome {A B} (f : A -> outcome B) (l : list A)
  : outcome (list B) :=
  match l with
  | [] => Ok []
  | x :: l' => y ← f x; ys ← map_outcome f l'; Ok (y :: ys)
  end.

(** [v == null]: true of [null] and [undefined] only. *)
Definition nullish (v : value) : bool :=
  match v with
  | VUndefined | VNull => true
  | _ => false
  end.

(** ToBoolean: [undefined], [null], [false], [0] and the empty string
    are falsy; every array and object is truthy, empty ones included. *)
Definition truthy (v : value) : bool :=
  match v with
  | VUndefined | VNull => false
  | VBool b => b
  | VNum z => negb (z =? 0)%Z
  | VStr s => negb (String.eqb s "")
  | VArr _ | VObj _ => true
  end.

(** [a || b] *)
Definition or_else (a b : value) : value :=
  if truthy a then a else b.

Fixpoint assoc {A} (k : string) (fs : list (string * A)) : option A :=
  match fs with
  | [] => None
  | (k', v) :: fs' => if String.eqb k k' then Some v else assoc k fs'
  end.

(** [k in Object(v)] and [v[k]] for a value [v] that is not nullish.
    Only own properties of objects are modelled: none of the names read
    in this development ([onEnter], [onReceive], [next], [catchAll],
    [condition], [node] and the two dotted paths) is a built-in property
    of arrays, strings, numbers, booleans or of [Object.prototype]. *)
Definition has_prop (v : value) (k : string) : bool :=
  match v with
  | VObj fs => bool_decide (is_Some (assoc k fs))
  | _ => false
  end.

Definition prop (v : value) (k : string) : value :=
  match v with
  | VObj fs => default VUndefined (assoc k fs)
  | _ => VUndefined
  end.

(** [v.k] as an expression: reading a property of [null] or [undefined]
    raises. *)
Definition member (v : value) (k : string) : outcome value :=
  if nullish v
  then Throw (TypeError ("Cannot read property '" +:+ k +:+ "' of " +:+
                         (if v is VNull then "null" else "undefined")))
  else Ok (prop v k).

(** ** lodash

    [_.get] and [_.isEmpty] are library code; they are transcribed from
    lodash 4 ([get], [baseGet], [castPath], [isKey], [stringToPath],
    [isEmpty]) for string paths made of names and dots, which is all the
    factory passes. *)

Definition is_dot (c : ascii) : bool := Ascii.eqb c ".".

(** [reIsPlainProp = /^\w*$/] *)
Definition word_char (c : ascii) : bool :=
  let n := nat_of_ascii c in
  ((48 <=? n)%nat && (n <=? 57)%nat) || ((65 <=? n)%nat && (n <=? 90)%nat)
  || ((97 <=? n)%nat && (n <=? 122)%nat) || (n =? 95)%nat.

Definition is_plain_prop (p : string) : bool :=
  forallb word_char (list_ascii_of_string p).

(** [reIsDeepProp], restricted to its first alternative (a dot): the
    paths used here hold no bracket. *)
Definition is_deep_prop (p : string) : bool :=
  existsb is_dot (list_ascii_of_string p).

Definition isKey (p : string) (object : value) : bool :=
  is_plain_prop p || negb (is_deep_prop p)
  || (negb (nullish object) && has_prop object p).

(** [stringToPath] on a path of names and dots. *)
Fixpoint split_dots (cur : string) (cs : list ascii) : list string :=
  match cs with
  | [] => [cur]
  | c :: cs' =>
      if is_dot c then cur :: split_dots "" cs'
      else split_dots (cur +:+ String c "") cs'
  end.

Definition stringToPath (p : string) : list string :=
  split_dots "" (list_ascii_of_string p).

Definition castPath (p : string) (object : value) : list string :=
  if isKey p object then [p] else stringToPath p.

(** [baseGet]: the loop stops at the first nullish intermediate value and
    then answers [undefined]; a nullish value at the very end of the path
    is returned as it is. *)
Fixpoint baseGet (object : value) (path : list string) : value :=
  match path with
  | [] => object
  | k :: rest =>
      if nullish object then VUndefined else baseGet (prop object k) rest
  end.

(** [_.get(object, path, defaultValue)] *)
Definition lodash_get (object : value) (p : string) (defaultValue : value)
  : value :=
  let result :=
    if nullish object then VUndefined else baseGet object (castPath p object) in
  if result is VUndefined then defaultValue else result.

(** [_.isEmpty]: arrays and strings by length, plain objects by own keys,
    everything else (numbers, booleans, nullish) is empty. *)
Definition isEmpty (v : value) : bool :=
  match v with
  | VArr xs => bool_decide (xs = [])
  | VStr s => String.eqb s ""
  | VObj fs => match fs with [] => true | _ => false end
  | _ => true
  end.

(** Spread of a value into an array literal, [[...v]]: arrays yield their
    elements and strings their characters; nothing else among JSON values
    is iterable. *)
Definition spread (v : value) : outcome (list value) :=
  match v with
  | VArr xs => Ok xs
  | VStr s => Ok (map (fun c => VStr (String c "")) (list_ascii_of_string s))
  | _ => Throw (TypeError "value is not iterable")
  end.

(** [v.map(f)]: only arrays have a [map] method. *)
Definition array_map {B} (f : value -> outcome B) (v : value)
  : outcome (list B) :=
  match v with
  | VArr xs => map_outcome f xs
  | _ => Throw (TypeError "map is not a function")
  end.

(** ** Instructions

    [{ type, fn?, node? }].  A field is [None] when the object literal
    does not mention it, and [Some VUndefined] when it is written with an
    undefined value. *)
Record Instruction : Type := mkInstruction {
  type : string;
  fn : option value;
  node : option value
}.

(** ** InstructionFactory

    The three arrow functions handed to [map] come first. *)

Definition on_enter_instruction (x : value) : Instruction :=
  {| type := "on-enter"; fn := Some x; node := None |}.

Definition on_receive_instruction (x : value) : Instruction :=
  {| type := "on-receive"; fn := Some x; node := None |}.

(** [x.condition] and [x.node] raise when the entry [x] is nullish. *)
Definition transition_instruction (x : value) : outcome Instruction :=
  condition ← member x "condition";
  destination ← member x "node";
  Ok {| type := "transition"; fn := Some condition; node := Some destination |}.

Definition createOnEnter (node : value) : outcome (list Instruction) :=
  let onEnter := or_else (lodash_get node "onEnter" (VArr [])) (VArr []) in
  array_map (fun x => Ok (on_enter_instruction x)) onEnter.

(** The result is [None] for JavaScript's [undefined]. *)
Definition createOnReceive (node flow : value)
  : outcome (option (list Instruction)) :=
  let flowReceive :=
    or_else (lodash_get flow "catchAll.onReceive" (VArr [])) (VArr []) in
  onReceive ← member node "onReceive";
  if negb (truthy onReceive) then Ok None
  else
    a ← spread flowReceive;
    b ← spread onReceive;
    l ← array_map (fun x => Ok (on_receive_instruction x)) (VArr (a ++ b));
    Ok (Some l).

Definition createTransition (node flow : value) : outcome (list Instruction) :=
  let nodeNext := or_else (lodash_get node "next" (VArr [])) (VArr []) in
  if isEmpty nodeNext then Ok []
  else
    let flowNext :=
      or_else (lodash_get flow "catchAll.next" (VArr [])) (VArr []) in
    a ← spread flowNext;
    b ← spread nodeNext;
    array_map transition_instruction (VArr (a ++ b)).

Definition createWait : Instruction :=
  {| type := "wait"; fn := None; node := None |}.

(** ** Reading documents

    How the optional list fields of a document are understood: a field
    that is missing or [null] stands for the empty list. *)

Definition list_or_missing (v : value) : bool :=
  match v with
  | VUndefined | VNull | VArr _ => true
  | _ => false
  end.

Definition as_list (v : value) : list value :=
  match v with
  | VArr xs => xs
  | _ => []
  end.

(** What [transition_instruction] builds from an entry that is not
    nullish. *)
Definition transition_of (x : value) : Instruction :=
  {| type := "transition";
     fn := Some (prop x "condition");
     node := Some (prop x "node") |}.

(** The lists the factory can hand to the interpreter. *)
Definition compiled (l : list Instruction) : Prop :=
  (exists node, createOnEnter node = Ok l)
  \/ (exists node flow, createOnReceive node flow = Ok (Some l))
  \/ (exists node flow, createTransition node flow = Ok l).

(** Inputs on which the robustness of the factory is examined. *)
Definition receive_only_node : value := VObj [("onReceive", VArr [])].

Definition flow_with_numeric_catch_all : value :=
  VObj [("catchAll", VObj [("onReceive", VNum 5)])].

(** Documents used as examples. *)
Definition example_node : value :=
  VObj [("onEnter", VArr [VStr "sayHi"]);
        ("onReceive", VArr []);
        ("next", VArr [VObj [("condition", VStr "true");
                             ("node", VStr "end")]])].

Definition example_flow : value :=
  VObj [("catchAll", VObj [("onReceive", VArr [VStr "log"])])].

Definition example_catch_all_next : value :=
  VObj [("catchAll",
         VObj [("next", VArr [VObj [("condition", VStr "event.type === 'quit'");
                                    ("node", VStr "bye")]])])].

(** A node whose three lists are [null] or missing. *)
Definition nulled_node : value :=
  VObj [("onEnter", VNull); ("onReceive", VNull)].

(** * Botpress: wiring of the dialog services

    [Botpress.initializeServices] installs three callbacks.  The services
    they call (hook service, decision engine, converse event bus, logger)
    are collaborators whose code lies outside this development; what is
    modelled of them is the calls they receive. *)

Module Botpress.

(** Modelled from the spec: the class [ProcessingError] is declared by the
    dialog engine, whose code is not part of this development.  It
    carries the failing instruction, the error message and the names of
    the owning flow and node; [botId] is the field the handler below
    reads to pick the logger.  All are strings. *)
Record ProcessingError : Type := {
  message : string;
  botId : string;
  nodeName : string;
  flowName : string;
  instruction : string
}.

Definition double_quote : string := String "034" "".
Definition line_feed : string := String "010" "".

(** The template literal of [formatError], line breaks included. *)
Definition formatError (err : ProcessingError) : string :=
  "Error processing " +:+ double_quote +:+ instruction err +:+ double_quote
  +:+ line_feed +:+ "Err: " +:+ message err
  +:+ line_feed +:+ "Flow: " +:+ flowName err
  +:+ line_feed +:+ "Node: " +:+ nodeName err.

(** A call [logger.forBot(bot).<level>(text)]. *)
Record LogCall : Type := {
  bot : string;
  level : string;
  text : string
}.

(** [dialogEngine.onProcessingError]: the state threaded through is the
    sequence of calls received by the [DialogEngine] logger. *)
Definition onProcessingError (err : ProcessingError) (logged : list LogCall)
  : list LogCall :=
  let message := formatError err in
  logged ++ [{| bot := botId err; level := "warn"; text := message |}].

(** [s] occurs in [t]. *)
Definition occurs_in (s t : string) : Prop :=
  exists before after, t = before +:+ s +:+ after.

(** [s] holds no line feed. *)
Definition single_line (s : string) : bool :=
  forallb (fun c => negb (Ascii.eqb c "010")) (list_ascii_of_string s).

Section IncomingEvents.

(** [sdk.IO.IncomingEvent] and the session key are opaque here; [target]
    is the event's [target] field. *)
Context {Event SessionId : Type}.
Variable target : Event -> string.

(** [SessionIdFactory.createIdFromEvent] is taken as a parameter: its
    code is not part of this development.  It is a function of the
    event's fields. *)
Variable createIdFromEvent : Event -> SessionId.

Inductive Hook : Type :=
  | BeforeIncomingMiddleware (event : Event)
  | AfterIncomingMiddleware (event : Event).

Inductive Call : Type :=
  | ExecuteHook (hook : Hook)
  | ProcessEvent (sessionId : SessionId) (event : Event)
  | EmitAsync (name : string) (event : Event).

Inductive Observation : Type :=
  | Invoked (c : Call)
  | Resolved (c : Call)
  | Rejected (c : Call) (reason : error).

(** The collaborators.  The event is one mutable object shared with
    them: a call that resolves leaves it with some content, which is
    what [settle] answers; a call may also reject.  The answer may
    depend on everything observed so far. *)
Variable settle : Call -> list Observation -> outcome Event.

(** Bodies of [async] functions: state is the observations made so far,
    a rejected promise that is awaited ends the body. *)
Definition async (A : Type) : Type :=
  list Observation -> outcome A * list Observation.

#[local] Instance async_ret : MRet async := fun A a seen => (Ok a, seen).
#[local] Instance async_bind : MBind async := fun A B k m seen =>
  match m seen with
  | (Ok a, seen') => k a seen'
  | (Throw e, seen') => (Throw e, seen')
  end.

Definition await (c : Call) : async Event := fun seen =>
  match settle c seen with
  | Ok event => (Ok event, seen ++ [Invoked c; Resolved c])
  | Throw e => (Throw e, seen ++ [Invoked c; Rejected c e])
  end.

Definition onBeforeIncomingMiddleware (event : Event) : async unit :=
  _ ← await (ExecuteHook (BeforeIncomingMiddleware event));
  mret tt.

Definition onAfterIncomingMiddleware (event : Event) : async unit :=
  event ← await (ExecuteHook (AfterIncomingMiddleware event));
  let sessionId := createIdFromEvent event in
  event ← await (ProcessEvent sessionId event);
  _ ← await (EmitAsync ("done." +:+ target event) event);
  mret tt.

End IncomingEvents.

(** ** Start-up

    The start-up methods of [Botpress] are scripts over the injected
    services.  A call to a service either returns a value or raises (for
    a promise that is awaited: resolves or rejects); what it answers is
    not decided here.  The logger only records. *)

Record Invocation : Type := {
  receiver : string;
  method : string;
  arguments : list value
}.

Inductive Step : Type :=
  | Called (c : Invocation)
  | Returned (c : Invocation) (v : value)
  | Raised (c : Invocation) (e : error)
  | Logged (level text : string) (attached : option error).

(** The steps taken so far and the [process] global the start-up
    writes. *)
Record Process : Type := {
  steps : list Step;
  JWT_SECRET : value
}.

(** The invocations made, in order. *)
Definition calls (l : list Step) : list Invocation :=
  omap (fun s => if s is Called c then Some c else None) l.

Section Startup.

(** The services: the answer to a call may depend on all the steps before
    it. *)
Variable respond : Invocation -> list Step -> outcome value.

(** [path.resolve(process.PROJECT_LOCATION, 'assets')],
    [path.join(__dirname, '../ui-admin')] and
    [path.join(__dirname, '../ui-studio')]. *)
Variables assets ui_admin ui_studio : string.

Definition task (A : Type) : Type := Process -> outcome A * Process.

#[local] Instance task_ret : MRet task := fun A a p => (Ok a, p).
#[local] Instance task_bind : MBind task := fun A B k m p =>
  match m p with
  | (Ok a, p') => k a p'
  | (Throw e, p') => (Throw e, p')
  end.

Definition invoke (c : Invocation) : task value := fun p =>
  match respond c (steps p) with
  | Ok v =>
      (Ok v, {| steps := steps p ++ [Called c; Returned c v];
                JWT_SECRET := JWT_SECRET p |})
  | Throw e =>
      (Throw e, {| steps := steps p ++ [Called c; Raised c e];
                   JWT_SECRET := JWT_SECRET p |})
  end.

Definition log (level text : string) (attached : option error) : task unit :=
  fun p =>
    (Ok tt, {| steps := steps p ++ [Logged level text attached];
               JWT_SECRET := JWT_SECRET p |}).

Definition evaluate {A} (r : outcome A) : task A := fun p => (r, p).

(** [process.JWT_SECRET = v] *)
Definition set_JWT_SECRET (v : value) : task unit := fun p =>
  (Ok tt, {| steps := steps p; JWT_SECRET := v |}).


(** [for (const x of l) { await body(x) }] *)
Fixpoint for_each (l : list value) (body : value -> task value) : task unit :=
  match l with
  | [] => mret tt
  | x :: l' => _ ← body x; for_each l' body
  end.

Definition nanoid (size : Z) : Invocation :=
  {| receiver := "nanoid"; method := "nanoid"; arguments := [VNum size] |}.

Definition mergeBotpressConfig (partial : value) : Invocation :=
  {| receiver := "configProvider"; method := "mergeBotpressConfig";
     arguments := [partial] |}.

(** [checkJwtSecret], with [this.config] as [config].  The promise of
    [mergeBotpressConfig] is not awaited: only a failure to make the call
    is seen here. *)
Definition checkJwtSecret (config : value) : task unit :=
  jwtSecret ← evaluate (member config "jwtSecret");
  jwtSecret ←
    (if negb (truthy jwtSecret) then
       jwtSecret ← invoke (nanoid 40);
       _ ← invoke (mergeBotpressConfig (VObj [("jwtSecret", jwtSecret)]));
       _ ← log "warn" "JWT Secret isn't defined. Generating a random key..."
             None;
       (mret jwtSecret : task value)
     else mret jwtSecret);
  set_JWT_SECRET jwtSecret.






Definition getAllBotIds : Invocation :=
  {| receiver := "botLoader"; method := "getAllBotIds"; arguments := [] |}.

Definition mountBot (bot : value) : Invocation :=
  {| receiver := "botLoader"; method := "mountBot"; arguments := [bot] |}.

Definition discoverBots : task unit :=
  botIds ← invoke getAllBotIds;
  bots ← evaluate (spread botIds);
  for_each bots (fun bot => invoke (mountBot bot)).

Definition httpServer_start : Invocation :=
  {| receiver := "httpServer"; method := "start"; arguments := [] |}.

Definition setDone (event : string) : Invocation :=
  {| receiver := "lifecycle"; method := "setDone";
     arguments := [VStr event] |}.

Definition startServer : task unit :=
  _ ← invoke httpServer_start;
  _ ← invoke (setDone "HTTP_SERVER_READY");
  mret tt.

End Startup.

(** Services for examples: two bots, a studio folder that is a symbolic
    link, a fixed generated key; every other call returns [undefined]. *)
Definition example_services (c : Invocation) (_ : list Step) : outcome value :=
  if String.eqb (method c) "getAllBotIds"
  then Ok (VArr [VStr "welcome"; VStr "support"])
  else if String.eqb (method c) "pathExistsSync"
          || String.eqb (method c) "isSymbolicLink"
  then Ok (VBool true)
  else if String.eqb (method c) "lstatSync"
  then Ok (VObj [("mode", VNum 41471)])
  else if String.eqb (method c) "nanoid" then Ok (VStr "k3y")
  else Ok VUndefined.

Definition fresh_process : Process :=
  {| steps := []; JWT_SECRET := VUndefined |}.

Definition example_error : ProcessingError :=
  {| message := "boom"; botId := "welcome"; nodeName := "entry";
     flowName := "main.flow.json"; instruction := "say #!text" |}.

End Botpress.

(** * The factory on a store

    In JavaScript arrays and objects are references into a shared store:
    the factory receives references to the very node and flow objects the
    dialog engine holds, and the instructions it returns point at the
    action payloads of those documents.  This second embedding of the
    factory keeps the store explicit.  Every array or object literal,
    every spread and every [map] allocates; the code has no assignment. *)

Module Store.

Definition loc : Type := nat.

Inductive val : Type :=
  | RUndefined
  | RNull
  | RBool (b : bool)
  | RNum (z : Z)
  | RStr (s : string)
  | RRef (l : loc).

Inductive object : Type :=
  | OArr (elements : list val)
  | OObj (fields : list (string * val)).

Definition heap : Type := gmap loc object.

(** Computations read and extend the store and may raise; the store is
    kept when they do. *)
Definition M (A : Type) : Type := heap -> outcome A * heap.

#[global] Instance M_ret : MRet M := fun A a h => (Ok a, h).
#[global] Instance M_bind : MBind M := fun A B k m h =>
  match m h with
  | (Ok a, h') => k a h'
  | (Throw e, h') => (Throw e, h')
  end.

Definition alloc (o : object) : M val := fun h =>
  let l := fresh (dom h) in (Ok (RRef l), <[l:=o]> h).

Definition read {A} (f : heap -> A) : M A := fun h => (Ok (f h), h).

Definition lift {A} (r : outcome A) : M A := fun h => (r, h).

Definition nullish (v : val) : bool :=
  match v with
  | RUndefined | RNull => true
  | _ => false
  end.

Definition truthy (v : val) : bool :=
  match v with
  | RUndefined | RNull => false
  | RBool b => b
  | RNum z => negb (z =? 0)%Z
  | RStr s => negb (String.eqb s "")
  | RRef _ => true
  end.

Definition fields_of (h : heap) (v : val) : option (list (string * val)) :=
  match v with
  | RRef l => match h !! l with Some (OObj fs) => Some fs | _ => None end
  | _ => None
  end.

Definition elements_of (h : heap) (v : val) : option (list val) :=
  match v with
  | RRef l => match h !! l with Some (OArr xs) => Some xs | _ => None end
  | _ => None
  end.

Definition has_prop (h : heap) (v : val) (k : string) : bool :=
  match fields_of h v with
  | Some fs => bool_decide (is_Some (assoc k fs))
  | None => false
  end.

Definition prop (h : heap) (v : val) (k : string) : val :=
  match fields_of h v with
  | Some fs => default RUndefined (assoc k fs)
  | None => RUndefined
  end.

Definition member (v : val) (k : string) : M val := fun h =>
  if nullish v
  then (Throw (TypeError ("Cannot read property '" +:+ k +:+ "' of " +:+
                          (if v is RNull then "null" else "undefined"))), h)
  else (Ok (prop h v k), h).

Definition isKey (h : heap) (p : string) (object : val) : bool :=
  is_plain_prop p || negb (is_deep_prop p)
  || (negb (nullish object) && has_prop h object p).

Definition castPath (h : heap) (p : string) (object : val) : list string :=
  if isKey h p object then [p] else stringToPath p.

Fixpoint baseGet (h : heap) (object : val) (path : list string) : val :=
  match path with
  | [] => object
  | k :: rest =>
      if nullish object then RUndefined else baseGet h (prop h object k) rest
  end.

Definition lodash_get (object : val) (p : string) (defaultValue : val)
  : M val :=
  read (fun h =>
    let result :=
      if nullish object then RUndefined
      else baseGet h object (castPath h p object) in
    if result is RUndefined then defaultValue else result).

Definition isEmpty (v : val) : M bool :=
  read (fun h =>
    match v with
    | RStr s => String.eqb s ""
    | RRef l =>
        match h !! l with
        | Some (OArr xs) => bool_decide (xs = [])
        | Some (OObj fs) => match fs with [] => true | _ => false end
        | None => true
        end
    | _ => true
    end).

(** The elements a spread copies out of [v]. *)
Definition spread (v : val) : M (list val) := fun h =>
  match v with
  | RStr s => (Ok (map (fun c => RStr (String c "")) (list_ascii_of_string s)), h)
  | _ =>
      match elements_of h v with
      | Some xs => (Ok xs, h)
      | None => (Throw (TypeError "value is not iterable"), h)
      end
  end.

Fixpoint map_store {B} (f : val -> M B) (l : list val) : M (list B) :=
  match l with
  | [] => mret []
  | x :: l' => y ← f x; ys ← map_store f l'; mret (y :: ys)
  end.

(** [v.map(f)] builds a new array and leaves [v] as it is. *)
Definition array_map (f : val -> M val) (v : val) : M val :=
  elements ← read (fun h => elements_of h v);
  match elements with
  | Some xs => ys ← map_store f xs; alloc (OArr ys)
  | None => lift (Throw (TypeError "map is not a function"))
  end.

(** [a || []]: the array literal is only built when [a] is falsy. *)
Definition or_else_empty (a : val) : M val :=
  if truthy a then mret a else alloc (OArr []).

Definition on_enter_instruction (x : val) : M val :=
  alloc (OObj [("type", RStr "on-enter"); ("fn", x)]).

Definition on_receive_instruction (x : val) : M val :=
  alloc (OObj [("type", RStr "on-receive"); ("fn", x)]).

Definition transition_instruction (x : val) : M val :=
  condition ← member x "condition";
  destination ← member x "node";
  alloc (OObj [("type", RStr "transition"); ("fn", condition);
               ("node", destination)]).

Definition createOnEnter (node : val) : M val :=
  empty ← alloc (OArr []);
  found ← lodash_get node "onEnter" empty;
  onEnter ← or_else_empty found;
  array_map on_enter_instruction onEnter.

Definition createOnReceive (node flow : val) : M val :=
  empty ← alloc (OArr []);
  found ← lodash_get flow "catchAll.onReceive" empty;
  flowReceive ← or_else_empty found;
  onReceive ← member node "onReceive";
  if negb (truthy onReceive) then mret RUndefined
  else
    a ← spread flowReceive;
    b ← spread onReceive;
    merged ← alloc (OArr (a ++ b));
    array_map on_receive_instruction merged.

Definition createTransition (node flow : val) : M val :=
  empty ← alloc (OArr []);
  found ← lodash_get node "next" empty;
  nodeNext ← or_else_empty found;
  none ← isEmpty nodeNext;
  if (none : bool) then alloc (OArr [])
  else
    empty ← alloc (OArr []);
    found ← lodash_get flow "catchAll.next" empty;
    flowNext ← or_else_empty found;
    a ← spread flowNext;
    b ← spread nodeNext;
    merged ← alloc (OArr (a ++ b));
    array_map transition_instruction merged.

Definition createWait : M val :=
  alloc (OObj [("type", RStr "wait")]).

(** ** Stored values and the documents they hold

    [represents h v t]: followed through the store [h], the value [v]
    is the document [t]. *)
Inductive represents (h : heap) : val -> value -> Prop :=
  | rep_undefined : represents h RUndefined VUndefined
  | rep_null : represents h RNull VNull
  | rep_bool b : represents h (RBool b) (VBool b)
  | rep_num z : represents h (RNum z) (VNum z)
  | rep_str s : represents h (RStr s) (VStr s)
  | rep_arr l xs ts :
      h !! l = Some (OArr xs) ->
      Forall2 (represents h) xs ts ->
      represents h (RRef l) (VArr ts)
  | rep_obj l fs tfs :
      h !! l = Some (OObj fs) ->
      Forall2 (fun f tf => f.1 = tf.1 /\ represents h f.2 tf.2) fs tfs ->
      represents h (RRef l) (VObj tfs).

End Store.

(** Instructions as the objects they are. *)
Definition instruction_value (i : Instruction) : value :=
  VObj (("type", VStr (type i))
        :: (if fn i is Some x then [("fn", x)] else [])
        ++ (if node i is Some x then [("node", x)] else [])).

Definition instructions_value (l : list Instruction) : value :=
  VArr (map instruction_value l).

Definition result_value (r : option (list Instruction)) : value :=
  match r with
  | Some l => instructions_value l
  | None => VUndefined
  end.

(** The outcome of a run on the store against an outcome on documents:
    the same error, or a result that holds the expected document. *)
Definition agrees {A} (to_value : A -> value) (expected : outcome A)
    (run : outcome Store.val * Store.heap) : Prop :=
  match expected, run.1 with
  | Ok a, Ok v => Store.represents run.2 v (to_value a)
  | Throw e, Throw e' => e = e'
  | _, _ => False
  end.

(** Two runs end alike: with the same error, or with results that hold
    the same document. *)
Definition same_outcome (run1 run2 : outcome Store.val * Store.heap) : Prop :=
  match run1.1, run2.1 with
  | Ok v1, Ok v2 =>
      exists t, Store.represents run1.2 v1 t /\ Store.represents run2.2 v2 t
  | Throw e1, Throw e2 => e1 = e2
  | _, _ => False
  end.

(** A run that leaves every object of the store as it was. *)
Definition preserves {A} (h : Store.heap) (run : outcome A * Store.heap) : Prop :=
  forall l o, h !! l = Some o -> run.2 !! l = Some o.

(** [simulates R expected m h]: run from [h], the store computation [m]
    keeps every object of [h] and ends as [expected] does, with a result
    that [R] relates to the expected one in the final store. *)
Definition simulates {A B} (R : Store.heap -> B -> A -> Prop)
    (expected : outcome A) (m : Store.M B) (h : Store.heap) : Prop :=
  h ⊆ (m h).2
  /\ match expected, (m h).1 with
     | Ok a, Ok b => R (m h).2 b a
     | Throw e, Throw e' => e = e'
     | _, _ => False
     end.

Definition holds {A} (to_value : A -> value)
  : Store.heap -> Store.val -> A -> Prop :=
  fun h v a => Store.represents h v (to_value a).

(** A store computation that only ever adds objects. *)
Definition grows {A} (m : Store.M A) : Prop :=
  forall h, h ⊆ (m h).2.

(** A small store for examples: a node with one on-enter action, an empty
    on-receive list and one transition, and a flow with one catch-all
    on-receive action. *)
Definition example_heap : Store.heap :=
  {[ 0%nat := Store.OObj [("onEnter", Store.RRef 1);
                          ("onReceive", Store.RRef 2);
                          ("next", Store.RRef 3)];
     1%nat := Store.OArr [Store.RStr "sayHi"];
     2%nat := Store.OArr [];
     3%nat := Store.OArr [Store.RRef 4];
     4%nat := Store.OObj [("condition", Store.RStr "true");
                          ("node", Store.RStr "end")];
     5%nat := Store.OObj [("catchAll", Store.RRef 6)];
     6%nat := Store.OObj [("onReceive", Store.RRef 7)];
     7%nat := Store.OArr [Store.RStr "log"] ]}.

(** The same two documents stored at other addresses, the arrays before
    the objects that point at them. *)
Definition relocated_heap : Store.heap :=
  {[ 10%nat := Store.OArr [Store.RStr "log"];
     11%nat := Store.OObj [("onReceive", Store.RRef 10)];
     12%nat := Store.OObj [("catchAll", Store.RRef 11)];
     13%nat := Store.OObj [("condition", Store.RStr "true");
                           ("node", Store.RStr "end")];
     14%nat := Store.OArr [Store.RRef 13];
     15%nat := Store.OArr [];
     16%nat := Store.OArr [Store.RStr "sayHi"];
     17%nat := Store.OObj [("onEnter", Store.RRef 16);
                           ("onReceive", Store.RRef 15);
                           ("next", Store.RRef 14)] ]}.


(** * Properties of the factory on documents *)

(** ** Reading documents with [_.get] *)

Lemma lodash_get_plain object p d :
  is_plain_prop p = true ->
  lodash_get object p d =
    if nullish object then d
    else if prop object p is VUndefined then d else prop object p.
Proof.
  intros Hp. unfold lodash_get, castPath, isKey. rewrite Hp. simpl.
  destruct (nullish object); reflexivity.
Qed.

Lemma lodash_get_default object p d :
  lodash_get object p d =
    if lodash_get object p VUndefined is VUndefined then d
    else lodash_get object p VUndefined.
Proof.
  unfold lodash_get.
  destruct (if nullish object then VUndefined
            else baseGet object (castPath p object)); reflexivity.
Qed.

Lemma get_or_empty object p :
  list_or_missing (lodash_get object p VUndefined) = true ->
  or_else (lodash_get object p (VArr [])) (VArr []) =
  VArr (as_list (lodash_get object p VUndefined)).
Proof.
  rewrite (lodash_get_default object p (VArr [])).
  destruct (lodash_get object p VUndefined); simpl;
    (reflexivity || discriminate).
Qed.

Lemma baseGet_undefined path : baseGet VUndefined path = VUndefined.
Proof. destruct path; reflexivity. Qed.

Lemma split_dots_cons cur cs : exists k rest, split_dots cur cs = k :: rest.
Proof.
  revert cur. induction cs as [|c cs IH]; intros cur; simpl; [eauto|].
  destruct (is_dot c); eauto.
Qed.

Lemma castPath_cons p object : exists k rest, castPath p object = k :: rest.
Proof.
  unfold castPath. destruct (isKey p object); [eauto|]. apply split_dots_cons.
Qed.

(** A flow that is missing, [null] or not an object has no catch-all
    entries: [_.get] answers the default. *)
Lemma lodash_get_not_object flow p d :
  (forall fs, flow <> VObj fs) -> lodash_get flow p d = d.
Proof.
  intros H. unfold lodash_get.
  destruct (castPath_cons p flow) as (k & rest & ->).
  destruct flow; try reflexivity; simpl; rewrite ?baseGet_undefined;
    try reflexivity.
  exfalso. eapply H. reflexivity.
Qed.

(** On a flow without a property literally named [catchAll.onReceive],
    the path is followed through [catchAll]. *)
Lemma lodash_get_catchAll_onReceive flow d :
  has_prop flow "catchAll.onReceive" = false ->
  lodash_get flow "catchAll.onReceive" d =
    if nullish flow || nullish (prop flow "catchAll") then d
    else if prop (prop flow "catchAll") "onReceive" is VUndefined then d
         else prop (prop flow "catchAll") "onReceive".
Proof.
  intros H. unfold lodash_get.
  assert (castPath "catchAll.onReceive" flow = ["catchAll"; "onReceive"]) as ->.
  { unfold castPath, isKey. rewrite H, andb_false_r. reflexivity. }
  destruct (nullish flow) eqn:E; [reflexivity|]. simpl. rewrite E. simpl.
  destruct (nullish (prop flow "catchAll")); reflexivity.
Qed.

Lemma lodash_get_catchAll_next flow d :
  has_prop flow "catchAll.next" = false ->
  lodash_get flow "catchAll.next" d =
    if nullish flow || nullish (prop flow "catchAll") then d
    else if prop (prop flow "catchAll") "next" is VUndefined then d
         else prop (prop flow "catchAll") "next".
Proof.
  intros H. unfold lodash_get.
  assert (castPath "catchAll.next" flow = ["catchAll"; "next"]) as ->.
  { unfold castPath, isKey. rewrite H, andb_false_r. reflexivity. }
  destruct (nullish flow) eqn:E; [reflexivity|]. simpl. rewrite E. simpl.
  destruct (nullish (prop flow "catchAll")); reflexivity.
Qed.

Lemma prop_is_object v k : prop v k <> VUndefined -> nullish v = false.
Proof. destruct v; simpl; congruence. Qed.

(** ** Mapping a callback *)

Lemma map_outcome_ok {A B} (f : A -> B) l :
  map_outcome (fun x => Ok (f x)) l = Ok (map f l).
Proof.
  induction l as [|x l IH]; simpl; [reflexivity|]. rewrite IH. reflexivity.
Qed.

Lemma map_outcome_Forall {A B} (f : A -> outcome B) (P : B -> Prop) l r :
  (forall x y, f x = Ok y -> P y) ->
  map_outcome f l = Ok r -> Forall P r.
Proof.
  intros Hf. revert r. induction l as [|x l IH]; simpl; intros r H.
  - inversion H. constructor.
  - destruct (f x) as [y|e] eqn:Hx; simpl in H; [|discriminate].
    destruct (map_outcome f l) as [ys|e]; simpl in H; [|discriminate].
    inversion H; subst. constructor; eauto.
Qed.

Lemma array_map_Forall {B} (f : value -> outcome B) (P : B -> Prop) v r :
  (forall x y, f x = Ok y -> P y) ->
  array_map f v = Ok r -> Forall P r.
Proof.
  intros Hf. destruct v; simpl; try discriminate.
  apply map_outcome_Forall. exact Hf.
Qed.

Lemma bind_Ok {A B} (m : outcome A) (k : A -> outcome B) b :
  mbind k m = Ok b -> exists a, m = Ok a /\ k a = Ok b.
Proof. destruct m as [a|e]; simpl; [eauto | discriminate]. Qed.

Ltac invert_bind H :=
  let a := fresh "a" in
  let Ha := fresh "Ha" in
  apply bind_Ok in H; destruct H as (a & Ha & H).

Lemma transition_instruction_ok x :
  nullish x = false -> transition_instruction x = Ok (transition_of x).
Proof.
  intros H. unfold transition_instruction, member. rewrite H. reflexivity.
Qed.

Lemma map_outcome_transition l :
  Forall (fun x => nullish x = false) l ->
  map_outcome transition_instruction l = Ok (map transition_of l).
Proof.
  induction 1 as [|x l Hx _ IH]; simpl; [reflexivity|].
  rewrite (transition_instruction_ok x Hx). simpl. rewrite IH. reflexivity.
Qed.

(** ** On-receive instructions *)

(** C1: a node without an [onReceive] field compiles to [undefined], never
    to a list, whatever the flow and its catch-all handlers are. *)
Theorem createOnReceive_absent node flow :
  nullish node = false ->
  prop node "onReceive" = VUndefined ->
  createOnReceive node flow = Ok None.
Proof.
  intros Hn Hp. unfold createOnReceive, member. rewrite Hn. simpl.
  rewrite Hp. reflexivity.
Qed.

Lemma createOnReceive_absent_witness :
  createOnReceive (VObj [("onEnter", VArr [VStr "sayHi"])]) example_flow
  = Ok None.
Proof. apply createOnReceive_absent; reflexivity. Defined.

(** C2: when [node.onReceive] is a list, the empty one included, the
    result is a list: one [on-receive] instruction per catch-all action of
    the flow, in order, followed by one per action of the node, in order.
    With no action on either side it is the empty list, not [undefined]. *)
Theorem createOnReceive_present node flow l :
  prop node "onReceive" = VArr l ->
  list_or_missing (lodash_get flow "catchAll.onReceive" VUndefined) = true ->
  let c := as_list (lodash_get flow "catchAll.onReceive" VUndefined) in
  createOnReceive node flow =
    Ok (Some (map on_receive_instruction c ++ map on_receive_instruction l))
  /\ (c = [] -> l = [] -> createOnReceive node flow = Ok (Some [])).
Proof.
  intros Hl Hc c.
  assert (E : createOnReceive node flow =
    Ok (Some (map on_receive_instruction c ++ map on_receive_instruction l))).
  { unfold createOnReceive, member.
    rewrite (prop_is_object node "onReceive") by (rewrite Hl; discriminate).
    rewrite (get_or_empty _ _ Hc). simpl. rewrite Hl. simpl.
    rewrite map_outcome_ok. simpl. rewrite map_app. reflexivity. }
  split; [exact E|]. intros Hc0 Hl0. rewrite E, Hc0, Hl0. reflexivity.
Qed.

Lemma createOnReceive_present_witness :
  createOnReceive example_node example_flow =
    Ok (Some [on_receive_instruction (VStr "log")])
  /\ createOnReceive example_node VUndefined = Ok (Some []).
Proof.
  split.
  - apply (createOnReceive_present example_node example_flow []); reflexivity.
  - apply (createOnReceive_present example_node VUndefined []); reflexivity.
Defined.

(** ** Transitions *)

(** C3: a node whose [next] is missing or empty compiles to no transition
    at all, even when the flow has catch-all transitions. *)
Theorem createTransition_no_next node flow :
  prop node "next" = VUndefined \/ prop node "next" = VArr [] ->
  createTransition node flow = Ok [].
Proof.
  intros H. unfold createTransition.
  rewrite lodash_get_plain by reflexivity.
  destruct (nullish node); [reflexivity|].
  destruct H as [-> | ->]; reflexivity.
Qed.

Lemma createTransition_no_next_witness :
  createTransition (VObj [("next", VArr [])]) example_catch_all_next = Ok []
  /\ createTransition (VObj []) example_catch_all_next = Ok [].
Proof.
  split; apply createTransition_no_next; [right | left]; reflexivity.
Defined.

(** C4: a node with a non-empty [next] compiles to one [transition]
    instruction per catch-all transition of the flow, in order, followed
    by one per transition of the node, in order; each carries the
    condition of its entry as [fn] and the destination as [node]. *)
Theorem createTransition_next node flow l :
  prop node "next" = VArr l -> l <> [] ->
  list_or_missing (lodash_get flow "catchAll.next" VUndefined) = true ->
  let c := as_list (lodash_get flow "catchAll.next" VUndefined) in
  Forall (fun x => nullish x = false) (c ++ l) ->
  createTransition node flow =
    Ok (map transition_of c ++ map transition_of l).
Proof.
  intros Hl Hne Hc c Hall. unfold createTransition.
  rewrite lodash_get_plain by reflexivity.
  rewrite (prop_is_object node "next") by (rewrite Hl; discriminate).
  rewrite Hl. simpl. rewrite bool_decide_eq_false_2 by exact Hne.
  rewrite (get_or_empty _ _ Hc). simpl. fold c.
  rewrite map_outcome_transition by exact Hall. rewrite map_app. reflexivity.
Qed.

Lemma createTransition_next_witness :
  createTransition example_node example_catch_all_next =
    Ok [ {| type := "transition"; fn := Some (VStr "event.type === 'quit'");
            node := Some (VStr "bye") |};
         {| type := "transition"; fn := Some (VStr "true");
            node := Some (VStr "end") |} ].
Proof.
  apply (createTransition_next example_node example_catch_all_next
           [VObj [("condition", VStr "true"); ("node", VStr "end")]]).
  - reflexivity.
  - discriminate.
  - reflexivity.
  - repeat constructor.
Defined.

(** ** On-enter instructions *)

(** C5: [createOnEnter] gives one [on-enter] instruction per entry of
    [node.onEnter], in the order of the list, and no instruction when the
    field is missing. *)
Theorem createOnEnter_entries node :
  (forall l, prop node "onEnter" = VArr l ->
     createOnEnter node = Ok (map on_enter_instruction l))
  /\ (prop node "onEnter" = VUndefined -> createOnEnter node = Ok []).
Proof.
  unfold createOnEnter. rewrite lodash_get_plain by reflexivity. split.
  - intros l Hl.
    rewrite (prop_is_object node "onEnter") by (rewrite Hl; discriminate).
    rewrite Hl. simpl. apply map_outcome_ok.
  - intros ->. destruct (nullish node); reflexivity.
Qed.

Lemma createOnEnter_entries_witness :
  createOnEnter example_node = Ok [on_enter_instruction (VStr "sayHi")]
  /\ createOnEnter (VObj []) = Ok [].
Proof.
  split.
  - apply (proj1 (createOnEnter_entries example_node) [VStr "sayHi"]).
    reflexivity.
  - apply (proj2 (createOnEnter_entries (VObj []))). reflexivity.
Defined.

(** ** Types of the instructions *)

Lemma createOnEnter_types node l :
  createOnEnter node = Ok l -> Forall (fun i => type i = "on-enter") l.
Proof.
  unfold createOnEnter. apply array_map_Forall.
  intros x y [= <-]. reflexivity.
Qed.

Lemma createOnReceive_types node flow l :
  createOnReceive node flow = Ok (Some l) ->
  Forall (fun i => type i = "on-receive") l.
Proof.
  unfold createOnReceive. intros H. invert_bind H.
  destruct (negb (truthy a)); [discriminate|].
  do 3 invert_bind H. injection H as <-.
  eapply array_map_Forall; [|eassumption].
  intros x y [= <-]. reflexivity.
Qed.

Lemma createTransition_types node flow l :
  createTransition node flow = Ok l ->
  Forall (fun i => type i = "transition") l.
Proof.
  unfold createTransition.
  destruct (isEmpty _); intros H; [injection H as <-; constructor|].
  do 2 invert_bind H.
  eapply array_map_Forall; [|exact H].
  intros x y Hx. unfold transition_instruction in Hx.
  do 2 invert_bind Hx. injection Hx as <-. reflexivity.
Qed.

(** C10: the instructions of [createOnEnter] all have type [on-enter],
    those of a defined [createOnReceive] result [on-receive], those of
    [createTransition] [transition]; no compiled list holds a [wait]
    instruction, which only [createWait] makes, as [{ type: 'wait' }]. *)
Theorem instruction_types :
  (forall node l, createOnEnter node = Ok l ->
     Forall (fun i => type i = "on-enter") l)
  /\ (forall node flow l, createOnReceive node flow = Ok (Some l) ->
     Forall (fun i => type i = "on-receive") l)
  /\ (forall node flow l, createTransition node flow = Ok l ->
     Forall (fun i => type i = "transition") l)
  /\ (forall l, compiled l -> Forall (fun i => type i <> "wait") l)
  /\ createWait = {| type := "wait"; fn := None; node := None |}.
Proof.
  split; [exact createOnEnter_types|].
  split; [exact createOnReceive_types|].
  split; [exact createTransition_types|].
  split; [|reflexivity].
  intros l [[n H] | [(n & f & H) | (n & f & H)]].
  - eapply Forall_impl; [apply (createOnEnter_types _ _ H)|].
    intros i ->. discriminate.
  - eapply Forall_impl; [apply (createOnReceive_types _ _ _ H)|].
    intros i ->. discriminate.
  - eapply Forall_impl; [apply (createTransition_types _ _ _ H)|].
    intros i ->. discriminate.
Qed.

Lemma instruction_types_witness :
  Forall (fun i => type i = "on-enter") [on_enter_instruction (VStr "sayHi")]
  /\ Forall (fun i => type i <> "wait") [on_enter_instruction (VStr "sayHi")].
Proof.
  split.
  - apply (proj1 instruction_types example_node). reflexivity.
  - apply (proj1 (proj2 (proj2 (proj2 instruction_types)))).
    left. exists example_node. reflexivity.
Defined.

(** ** Robustness *)

(** C9, as stated, fails: a flow whose catch-all [onReceive] is a number
    makes [createOnReceive] raise on a node that listens. *)
Lemma createOnReceive_numeric_catch_all_raises :
  nullish receive_only_node = false
  /\ createOnReceive receive_only_node flow_with_numeric_catch_all =
       Throw (TypeError "value is not iterable").
Proof. split; reflexivity. Qed.

(** C9, amended: on a node that is neither [null] nor [undefined] and any
    flow - missing, [null], not an object, or an object - such that each
    of [node.onEnter], [node.onReceive], [node.next] and the flow's
    [catchAll.onReceive] and [catchAll.next] is missing, [null] or a list,
    and no entry of the two [next] lists is [null] or [undefined], the
    three functions return without raising.  A missing or [null] list
    counts as empty; a missing or [null] [onReceive] gives [undefined]. *)
Theorem factory_total_on_documents node flow :
  nullish node = false ->
  list_or_missing (prop node "onEnter") = true ->
  list_or_missing (prop node "onReceive") = true ->
  list_or_missing (prop node "next") = true ->
  list_or_missing (lodash_get flow "catchAll.onReceive" VUndefined) = true ->
  list_or_missing (lodash_get flow "catchAll.next" VUndefined) = true ->
  Forall (fun x => nullish x = false)
    (as_list (lodash_get flow "catchAll.next" VUndefined)
     ++ as_list (prop node "next")) ->
  createOnEnter node =
    Ok (map on_enter_instruction (as_list (prop node "onEnter")))
  /\ createOnReceive node flow =
       Ok (if prop node "onReceive" is VArr l
           then Some (map on_receive_instruction
                        (as_list (lodash_get flow "catchAll.onReceive"
                                    VUndefined) ++ l))
           else None)
  /\ createTransition node flow =
       Ok (if as_list (prop node "next") is [] then []
           else map transition_of
                  (as_list (lodash_get flow "catchAll.next" VUndefined)
                   ++ as_list (prop node "next"))).
Proof.
  intros Hn He Hr Hx Hfr Hfx Hall. repeat split.
  - unfold createOnEnter. rewrite lodash_get_plain, Hn by reflexivity.
    destruct (prop node "onEnter"); try discriminate; simpl;
      [reflexivity | reflexivity | apply map_outcome_ok].
  - unfold createOnReceive, member. rewrite Hn. simpl.
    destruct (prop node "onReceive") as [| | | | |l|] eqn:E; try discriminate;
      try reflexivity.
    simpl. rewrite (get_or_empty _ _ Hfr). simpl.
    rewrite map_outcome_ok. reflexivity.
  - unfold createTransition. rewrite lodash_get_plain, Hn by reflexivity.
    destruct (prop node "next") as [| | | | |l|] eqn:E; try discriminate;
      try reflexivity.
    simpl. destruct l as [|x l]; [reflexivity|].
    rewrite bool_decide_eq_false_2 by discriminate.
    rewrite (get_or_empty _ _ Hfx). simpl in *.
    rewrite map_outcome_transition by exact Hall. reflexivity.
Qed.

Lemma factory_total_on_documents_witness :
  createOnEnter nulled_node = Ok []
  /\ createOnReceive nulled_node (VNum 7) = Ok None
  /\ createTransition nulled_node (VNum 7) = Ok [].
Proof.
  apply (factory_total_on_documents nulled_node (VNum 7));
    first [reflexivity | constructor].
Defined.
(** ** Error reporting *)

Lemma string_app_assoc (a b c : string) : (a +:+ b) +:+ c = a +:+ (b +:+ c).
Proof.
  induction a as [|x a IH]; [reflexivity|].
  change (String x ((a +:+ b) +:+ c) = String x (a +:+ b +:+ c)).
  f_equal. exact IH.
Qed.

Lemma string_app_nil_r (a : string) : a +:+ "" = a.
Proof.
  induction a as [|x a IH]; [reflexivity|].
  change (String x (a +:+ "") = String x a). f_equal. exact IH.
Qed.

Lemma occurs_in_refl s : Botpress.occurs_in s s.
Proof. exists "", "". symmetry. apply string_app_nil_r. Qed.

Lemma occurs_in_head s b : Botpress.occurs_in s (s +:+ b).
Proof. exists "", b. reflexivity. Qed.

Lemma occurs_in_app_r s a t :
  Botpress.occurs_in s t -> Botpress.occurs_in s (a +:+ t).
Proof.
  intros (before & after & ->). exists (a +:+ before), after.
  symmetry. apply string_app_assoc.
Qed.

Ltac find_occurrence :=
  repeat first [ apply occurs_in_head | apply occurs_in_refl
               | apply occurs_in_app_r ].

(** C6: the message built for a processing error holds the failing
    instruction, the error message, the flow name and the node name, and
    the handler passes every error it receives to the logger, as one
    warning carrying that message. *)
Theorem processing_error_is_logged (err : Botpress.ProcessingError)
    (logged : list Botpress.LogCall) :
  let message := Botpress.formatError err in
  (Botpress.occurs_in (Botpress.instruction err) message
   /\ Botpress.occurs_in (Botpress.message err) message
   /\ Botpress.occurs_in (Botpress.flowName err) message
   /\ Botpress.occurs_in (Botpress.nodeName err) message)
  /\ Botpress.onProcessingError err logged =
       logged ++ [{| Botpress.bot := Botpress.botId err;
                     Botpress.level := "warn";
                     Botpress.text := message |}].
Proof.
  intros message. split; [|reflexivity].
  unfold message, Botpress.formatError. repeat split; find_occurrence.
Qed.

(** ** Incoming events *)

Section IncomingEventFacts.
Context {Event SessionId : Type}.
Variable target : Event -> string.
Variable createIdFromEvent : Event -> SessionId.
Variable settle :
  @Botpress.Call Event SessionId ->
  list (@Botpress.Observation Event SessionId) -> outcome Event.


End IncomingEventFacts.

(** * The factory on the store *)

(** ** The store model and the document model agree *)

Section StoreFacts.

Lemma represents_mono h h' v t :
  h ⊆ h' -> Store.represents h v t -> Store.represents h' v t.
Proof.
  intros Hsub. revert v t.
  fix IH 3. intros v t H. destruct H as [| | | | |l xs ts Hl Hall|l fs tfs Hl Hall].
  - constructor.
  - constructor.
  - constructor.
  - constructor.
  - constructor.
  - apply Store.rep_arr with xs; [eapply lookup_weaken; eassumption|].
    clear Hl. induction Hall as [|x t xs ts Hx _ IHall].
    { constructor. }
    constructor; [apply IH, Hx | exact IHall].
  - apply Store.rep_obj with fs; [eapply lookup_weaken; eassumption|].
    clear Hl. induction Hall as [|f tf fs tfs [Hk Hx] _ IHall].
    { constructor. }
    constructor; [split; [exact Hk | apply IH, Hx] | exact IHall].
Qed.

Lemma rep_truthy h v t : Store.represents h v t -> Store.truthy v = truthy t.
Proof. destruct 1; reflexivity. Qed.

Lemma rep_nullish h v t : Store.represents h v t -> Store.nullish v = nullish t.
Proof. destruct 1; reflexivity. Qed.

Lemma rep_assoc h k fs tfs :
  Forall2 (fun f tf => f.1 = tf.1 /\ Store.represents h f.2 tf.2) fs tfs ->
  match assoc k fs, assoc k tfs with
  | Some x, Some t => Store.represents h x t
  | None, None => True
  | _, _ => False
  end.
Proof.
  induction 1 as [|[k1 x] [k2 t] fs tfs [Hk Hx] _ IH]; simpl; [exact I|].
  simpl in Hk, Hx. subst k2. destruct (String.eqb k k1); [exact Hx | exact IH].
Qed.

Lemma rep_prop h v t k :
  Store.represents h v t -> Store.represents h (Store.prop h v k) (prop t k).
Proof.
  destruct 1 as [| | | | |l xs ts Hl Hall|l fs tfs Hl Hall];
    unfold Store.prop; simpl; try rewrite Hl; try constructor.
  pose proof (rep_assoc h k fs tfs Hall) as H.
  destruct (assoc k fs), (assoc k tfs); simpl; try contradiction;
    [exact H | constructor].
Qed.

Lemma rep_has_prop h v t k :
  Store.represents h v t -> Store.has_prop h v k = has_prop t k.
Proof.
  destruct 1 as [| | | | |l xs ts Hl Hall|l fs tfs Hl Hall];
    unfold Store.has_prop; simpl; try rewrite Hl; try reflexivity.
  pose proof (rep_assoc h k fs tfs Hall) as H.
  destruct (assoc k fs), (assoc k tfs); simpl; try contradiction; reflexivity.
Qed.

Lemma rep_castPath h v t p :
  Store.represents h v t -> Store.castPath h p v = castPath p t.
Proof.
  intros H. unfold Store.castPath, castPath, Store.isKey, isKey.
  rewrite (rep_nullish _ _ _ H), (rep_has_prop _ _ _ p H). reflexivity.
Qed.

Lemma rep_baseGet h path : forall v t,
  Store.represents h v t -> Store.represents h (Store.baseGet h v path) (baseGet t path).
Proof.
  induction path as [|k rest IH]; intros v t H; simpl; [exact H|].
  rewrite (rep_nullish _ _ _ H). destruct (nullish t); [constructor|].
  apply IH, rep_prop, H.
Qed.

End StoreFacts.
Section Simulation.

Lemma sim_bind {A A' B B'} (R : Store.heap -> B -> A -> Prop)
    (R' : Store.heap -> B' -> A' -> Prop) ea (ka : A -> outcome A')
    (m : Store.M B) (k : B -> Store.M B') h :
  simulates R ea m h ->
  (forall h' a b, h ⊆ h' -> R h' b a -> simulates R' (ka a) (k b) h') ->
  simulates R' (ea ≫= ka) (m ≫= k) h.
Proof.
  unfold simulates, mbind, Store.M_bind, outcome_bind.
  intros [Hsub Hres] Hk. destruct (m h) as [[b|e] h1]; simpl in *.
  - destruct ea as [a|e]; [|contradiction].
    destruct (Hk h1 a b Hsub Hres) as [Hsub' Hres'].
    split; [etrans; eassumption | exact Hres'].
  - destruct ea as [a|e']; [contradiction|]. split; assumption.
Qed.

Lemma sim_let {A A' B B'} (R : Store.heap -> B -> A -> Prop)
    (R' : Store.heap -> B' -> A' -> Prop) (a : A) (e : outcome A')
    (m : Store.M B) (k : B -> Store.M B') h :
  simulates R (Ok a) m h ->
  (forall h' b, h ⊆ h' -> R h' b a -> simulates R' e (k b) h') ->
  simulates R' e (m ≫= k) h.
Proof.
  unfold simulates, mbind, Store.M_bind.
  intros [Hsub Hres] Hk. destruct (m h) as [[b|e'] h1]; simpl in *;
    [|contradiction].
  destruct (Hk h1 b Hsub Hres) as [Hsub' Hres'].
  split; [etrans; eassumption | exact Hres'].
Qed.

Lemma sim_ret {A B} (R : Store.heap -> B -> A -> Prop) a b h :
  R h b a -> simulates R (Ok a) (mret b) h.
Proof. intros H. split; [reflexivity | exact H]. Qed.

Lemma alloc_fresh o h :
  exists l, Store.alloc o h = (Ok (Store.RRef l), <[l:=o]> h) /\ h !! l = None.
Proof.
  exists (fresh (dom h)). split; [reflexivity|].
  apply not_elem_of_dom, is_fresh.
Qed.

Lemma sim_alloc_arr h xs ts :
  Forall2 (Store.represents h) xs ts ->
  simulates (holds id) (Ok (VArr ts)) (Store.alloc (Store.OArr xs)) h.
Proof.
  intros Hall. destruct (alloc_fresh (Store.OArr xs) h) as (l & E & Hl).
  unfold simulates. rewrite E. simpl.
  assert (Hsub : h ⊆ <[l:=Store.OArr xs]> h) by (apply insert_subseteq; exact Hl).
  split; [exact Hsub|]. apply Store.rep_arr with xs; [apply lookup_insert_eq|].
  eapply Forall2_impl; [exact Hall|]. intros x t. apply represents_mono, Hsub.
Qed.

Lemma sim_alloc_obj h fs tfs :
  Forall2 (fun f tf => f.1 = tf.1 /\ Store.represents h f.2 tf.2) fs tfs ->
  simulates (holds id) (Ok (VObj tfs)) (Store.alloc (Store.OObj fs)) h.
Proof.
  intros Hall. destruct (alloc_fresh (Store.OObj fs) h) as (l & E & Hl).
  unfold simulates. rewrite E. simpl.
  assert (Hsub : h ⊆ <[l:=Store.OObj fs]> h) by (apply insert_subseteq; exact Hl).
  split; [exact Hsub|]. apply Store.rep_obj with fs; [apply lookup_insert_eq|].
  eapply Forall2_impl; [exact Hall|]. intros x t [Hk Hx].
  split; [exact Hk|]. eapply represents_mono; eassumption.
Qed.

Lemma sim_lodash_get h v t d td p :
  Store.represents h v t -> Store.represents h d td ->
  simulates (holds id) (Ok (lodash_get t p td)) (Store.lodash_get v p d) h.
Proof.
  intros Hv Hd. split; [reflexivity|]. simpl. unfold holds, lodash_get, id.
  rewrite (rep_nullish _ _ _ Hv), (rep_castPath _ _ _ p Hv).
  assert (H : Store.represents h
            (if nullish t then Store.RUndefined
             else Store.baseGet h v (castPath p t))
            (if nullish t then VUndefined else baseGet t (castPath p t))).
  { destruct (nullish t); [constructor|]. apply rep_baseGet, Hv. }
  destruct H; try constructor; try assumption; eauto using Store.represents.
Qed.

Lemma sim_or_else_empty h v t :
  Store.represents h v t ->
  simulates (holds id) (Ok (or_else t (VArr []))) (Store.or_else_empty v) h.
Proof.
  intros Hv. unfold Store.or_else_empty, or_else. rewrite (rep_truthy _ _ _ Hv).
  destruct (truthy t); [apply sim_ret, Hv | apply sim_alloc_arr; constructor].
Qed.

Lemma sim_member h v t k :
  Store.represents h v t ->
  simulates (holds id) (member t k) (Store.member v k) h.
Proof.
  intros Hv. unfold simulates, Store.member, member.
  rewrite (rep_nullish _ _ _ Hv). destruct (nullish t) eqn:E; simpl.
  - split; [reflexivity|]. destruct Hv; try discriminate E; reflexivity.
  - split; [reflexivity|]. apply rep_prop, Hv.
Qed.

Lemma sim_isEmpty h v t :
  Store.represents h v t ->
  simulates (fun _ b a => b = a) (Ok (isEmpty t)) (Store.isEmpty v) h.
Proof.
  intros Hv. split; [reflexivity|]. simpl.
  destruct Hv as [| | | | |l xs ts Hl Hall|l fs tfs Hl Hall]; simpl;
    try reflexivity; rewrite Hl.
  - destruct Hall; reflexivity.
  - destruct Hall; reflexivity.
Qed.

Lemma sim_spread h v t :
  Store.represents h v t ->
  simulates (fun h xs ts => Forall2 (Store.represents h) xs ts)
    (spread t) (Store.spread v) h.
Proof.
  intros Hv. unfold simulates, Store.spread.
  destruct Hv as [| | | | s |l xs ts Hl Hall|l fs tfs Hl Hall]; simpl;
    try rewrite Hl; (split; [reflexivity|]); try reflexivity.
  - induction (list_ascii_of_string s); constructor; [constructor | assumption].
  - exact Hall.
Qed.

Lemma Forall2_represents_mono h h' xs ts :
  h ⊆ h' -> Forall2 (Store.represents h) xs ts -> Forall2 (Store.represents h') xs ts.
Proof.
  intros Hsub Hall. eapply Forall2_impl; [exact Hall|].
  intros x t. apply represents_mono, Hsub.
Qed.

Lemma sim_map_store {B} (to_value : B -> value) (fa : value -> outcome B)
    (fc : Store.val -> Store.M Store.val) :
  (forall h x tx, Store.represents h x tx ->
     simulates (holds to_value) (fa tx) (fc x) h) ->
  forall xs ts h,
  Forall2 (Store.represents h) xs ts ->
  simulates (fun h vs bs => Forall2 (Store.represents h) vs (map to_value bs))
    (map_outcome fa ts) (Store.map_store fc xs) h.
Proof.
  intros Hf xs. induction xs as [|x xs IH]; intros ts h Hall;
    inversion Hall as [|? t ? ts' Hx Hxs]; subst; simpl.
  - apply sim_ret. constructor.
  - eapply sim_bind; [apply Hf, Hx|]. intros h1 y vy Hsub1 Hy.
    eapply sim_bind.
    { apply IH. eapply Forall2_represents_mono; eassumption. }
    intros h2 ys vs Hsub2 Hys. apply sim_ret. simpl.
    constructor; [|exact Hys]. eapply represents_mono; eassumption.
Qed.

Lemma outcome_bind_ret {A} (m : outcome A) : m ≫= Ok = m.
Proof. destruct m; reflexivity. Qed.

Lemma sim_array_map {B} (to_value : B -> value) (fa : value -> outcome B)
    (fc : Store.val -> Store.M Store.val) h v t :
  (forall h x tx, Store.represents h x tx ->
     simulates (holds to_value) (fa tx) (fc x) h) ->
  Store.represents h v t ->
  simulates (holds (fun bs => VArr (map to_value bs)))
    (array_map fa t) (Store.array_map fc v) h.
Proof.
  intros Hf Hv. unfold Store.array_map.
  apply (sim_let (fun _ o (_ : unit) => o = Store.elements_of h v) _ tt).
  { split; [reflexivity | reflexivity]. }
  intros h1 o Hsub ->.
  destruct Hv as [| | | | |l xs ts Hl Hall|l fs tfs Hl Hall]; simpl;
    try rewrite Hl; try (split; [reflexivity | reflexivity]).
  rewrite <- (outcome_bind_ret (map_outcome fa ts)).
  eapply sim_bind.
  { apply (sim_map_store to_value fa fc Hf).
    eapply Forall2_represents_mono; eassumption. }
  intros h2 bs ys Hsub2 Hys. apply sim_alloc_arr, Hys.
Qed.

Lemma sim_on_enter_instruction h x tx :
  Store.represents h x tx ->
  simulates (holds instruction_value) (Ok (on_enter_instruction tx))
    (Store.on_enter_instruction x) h.
Proof.
  intros Hx. apply sim_alloc_obj.
  repeat first [ exact Hx | constructor ].
Qed.

Lemma sim_on_receive_instruction h x tx :
  Store.represents h x tx ->
  simulates (holds instruction_value) (Ok (on_receive_instruction tx))
    (Store.on_receive_instruction x) h.
Proof.
  intros Hx. apply sim_alloc_obj.
  repeat first [ exact Hx | constructor ].
Qed.

Lemma sim_transition_instruction h x tx :
  Store.represents h x tx ->
  simulates (holds instruction_value) (transition_instruction tx)
    (Store.transition_instruction x) h.
Proof.
  intros Hx. unfold transition_instruction, Store.transition_instruction.
  eapply sim_bind; [apply sim_member, Hx|]. intros h1 tc c Hsub1 Hc.
  eapply sim_bind.
  { apply sim_member. eapply represents_mono; eassumption. }
  intros h2 tn n Hsub2 Hn. apply sim_alloc_obj.
  repeat first [ exact Hn | eapply represents_mono; eassumption
               | constructor ].
Qed.

(** The factory on the store computes what the factory on documents
    computes. *)
Lemma createOnEnter_refines h node tnode :
  Store.represents h node tnode ->
  simulates (holds instructions_value) (createOnEnter tnode)
    (Store.createOnEnter node) h.
Proof.
  intros Hn. unfold createOnEnter, Store.createOnEnter.
  eapply sim_let; [apply sim_alloc_arr; constructor|].
  intros h1 empty Hsub1 Hempty.
  eapply sim_let.
  { apply sim_lodash_get; [eapply represents_mono|]; eassumption. }
  intros h2 found Hsub2 Hfound.
  eapply sim_let; [apply sim_or_else_empty, Hfound|].
  intros h3 onEnter Hsub3 HonEnter.
  apply (sim_array_map instruction_value); [|exact HonEnter].
  intros. apply sim_on_enter_instruction. assumption.
Qed.

Lemma sim_some h (e : outcome (list Instruction)) (m : Store.M Store.val) :
  simulates (holds instructions_value) e m h ->
  simulates (holds result_value) (l ← e; Ok (Some l)) m h.
Proof.
  unfold simulates. intros [Hsub H]. split; [exact Hsub|].
  destruct e, (m h).1; simpl in *; assumption.
Qed.

Lemma createOnReceive_refines h node flow tnode tflow :
  Store.represents h node tnode -> Store.represents h flow tflow ->
  simulates (holds result_value) (createOnReceive tnode tflow)
    (Store.createOnReceive node flow) h.
Proof.
  intros Hn Hf. unfold createOnReceive, Store.createOnReceive.
  eapply sim_let; [apply sim_alloc_arr; constructor|].
  intros h1 empty Hsub1 Hempty.
  eapply sim_let.
  { apply sim_lodash_get; [eapply represents_mono|]; eassumption. }
  intros h2 found Hsub2 Hfound.
  eapply sim_let; [apply sim_or_else_empty, Hfound|].
  intros h3 flowReceive Hsub3 HflowReceive.
  assert (Hn3 : Store.represents h3 node tnode).
  { eapply represents_mono; [|exact Hn]. do 2 (etrans; [eassumption|]). done. }
  eapply sim_bind; [apply sim_member, Hn3|].
  intros h4 tr onReceive Hsub4 Hr. unfold holds, id in Hr.
  rewrite (rep_truthy _ _ _ Hr). destruct (truthy tr).
  2:{ apply sim_ret. constructor. }
  simpl. eapply sim_bind.
  { apply sim_spread. eapply represents_mono; eassumption. }
  intros h5 ta a Hsub5 Ha.
  eapply sim_bind.
  { apply sim_spread. eapply represents_mono; eassumption. }
  intros h6 tb b Hsub6 Hb.
  eapply sim_let.
  { apply (sim_alloc_arr h6 (a ++ b) (ta ++ tb)).
    apply Forall2_app; [eapply Forall2_represents_mono; eassumption | exact Hb]. }
  intros h7 merged Hsub7 Hmerged.
  apply sim_some.
  apply (sim_array_map instruction_value
           (fun x => Ok (on_receive_instruction x))
           Store.on_receive_instruction h7 merged (VArr (ta ++ tb)));
    [|exact Hmerged].
  intros. apply sim_on_receive_instruction. assumption.
Qed.

Lemma createTransition_refines h node flow tnode tflow :
  Store.represents h node tnode -> Store.represents h flow tflow ->
  simulates (holds instructions_value) (createTransition tnode tflow)
    (Store.createTransition node flow) h.
Proof.
  intros Hn Hf. unfold createTransition, Store.createTransition.
  eapply sim_let; [apply sim_alloc_arr; constructor|].
  intros h1 empty Hsub1 Hempty.
  eapply sim_let.
  { apply sim_lodash_get; [eapply represents_mono|]; eassumption. }
  intros h2 found Hsub2 Hfound.
  eapply sim_let; [apply sim_or_else_empty, Hfound|].
  intros h3 nodeNext Hsub3 HnodeNext.
  eapply sim_let; [apply sim_isEmpty, HnodeNext|].
  intros h4 none Hsub4 ->.
  destruct (isEmpty _).
  { apply (sim_alloc_arr h4 [] []). constructor. }
  assert (Hf4 : Store.represents h4 flow tflow).
  { eapply represents_mono; [|exact Hf]. do 3 (etrans; [eassumption|]). done. }
  eapply sim_let; [apply sim_alloc_arr; constructor|].
  intros h5 empty' Hsub5 Hempty'.
  eapply sim_let.
  { apply sim_lodash_get; [eapply represents_mono|]; eassumption. }
  intros h6 found' Hsub6 Hfound'.
  eapply sim_let; [apply sim_or_else_empty, Hfound'|].
  intros h7 flowNext Hsub7 HflowNext.
  eapply sim_bind; [apply sim_spread, HflowNext|].
  intros h8 ta a Hsub8 Ha.
  eapply sim_bind.
  { apply sim_spread. eapply represents_mono; [|exact HnodeNext].
    do 4 (etrans; [eassumption|]). done. }
  intros h9 tb b Hsub9 Hb.
  eapply sim_let.
  { apply (sim_alloc_arr h9 (a ++ b) (ta ++ tb)).
    apply Forall2_app; [eapply Forall2_represents_mono; eassumption | exact Hb]. }
  intros h10 merged Hsub10 Hmerged.
  apply (sim_array_map instruction_value transition_instruction
           Store.transition_instruction h10 merged (VArr (ta ++ tb)));
    [|exact Hmerged].
  intros. apply sim_transition_instruction. assumption.
Qed.
End Simulation.
Section Growth.

Lemma grows_ret {A} (a : A) : grows (mret a : Store.M A).
Proof. intros h. reflexivity. Qed.

Lemma grows_bind {A B} (m : Store.M A) (k : A -> Store.M B) :
  grows m -> (forall a, grows (k a)) -> grows (m ≫= k).
Proof.
  intros Hm Hk h. unfold mbind, Store.M_bind. specialize (Hm h).
  destruct (m h) as [[a|e] h1]; simpl in *; [|exact Hm].
  etrans; [exact Hm | apply Hk].
Qed.

Lemma grows_alloc o : grows (Store.alloc o).
Proof.
  intros h. destruct (alloc_fresh o h) as (l & -> & Hl).
  apply insert_subseteq, Hl.
Qed.

Lemma grows_read {A} (f : Store.heap -> A) : grows (Store.read f).
Proof. intros h. reflexivity. Qed.

Lemma grows_lift {A} (r : outcome A) : grows (Store.lift r).
Proof. intros h. reflexivity. Qed.

Lemma grows_member v k : grows (Store.member v k).
Proof. intros h. unfold Store.member. destruct (Store.nullish v); reflexivity. Qed.

Lemma grows_spread v : grows (Store.spread v).
Proof.
  intros h. unfold Store.spread.
  destruct v; simpl; try reflexivity.
  destruct (h !! l) as [[]|]; reflexivity.
Qed.

Lemma grows_or_else_empty v : grows (Store.or_else_empty v).
Proof.
  unfold Store.or_else_empty. destruct (Store.truthy v);
    [apply grows_ret | apply grows_alloc].
Qed.

Lemma grows_map_store {B} (f : Store.val -> Store.M B) l :
  (forall x, grows (f x)) -> grows (Store.map_store f l).
Proof.
  intros Hf. induction l as [|x l IH]; simpl; [apply grows_ret|].
  apply grows_bind; [apply Hf|]. intros y.
  apply grows_bind; [exact IH|]. intros ys. apply grows_ret.
Qed.

Lemma grows_array_map f v :
  (forall x, grows (f x)) -> grows (Store.array_map f v).
Proof.
  intros Hf. unfold Store.array_map.
  apply grows_bind; [apply grows_read|]. intros [xs|]; [|apply grows_lift].
  apply grows_bind; [apply grows_map_store, Hf|]. intros ys. apply grows_alloc.
Qed.

Lemma grows_transition_instruction x : grows (Store.transition_instruction x).
Proof.
  unfold Store.transition_instruction.
  apply grows_bind; [apply grows_member|]. intros c.
  apply grows_bind; [apply grows_member|]. intros n. apply grows_alloc.
Qed.

Lemma grows_createOnEnter node : grows (Store.createOnEnter node).
Proof.
  unfold Store.createOnEnter.
  apply grows_bind; [apply grows_alloc|]. intros empty.
  apply grows_bind; [apply grows_read|]. intros found.
  apply grows_bind; [apply grows_or_else_empty|]. intros onEnter.
  apply grows_array_map. intros x. apply grows_alloc.
Qed.

Lemma grows_createOnReceive node flow : grows (Store.createOnReceive node flow).
Proof.
  unfold Store.createOnReceive.
  apply grows_bind; [apply grows_alloc|]. intros empty.
  apply grows_bind; [apply grows_read|]. intros found.
  apply grows_bind; [apply grows_or_else_empty|]. intros flowReceive.
  apply grows_bind; [apply grows_member|]. intros onReceive.
  destruct (negb _); [apply grows_ret|].
  apply grows_bind; [apply grows_spread|]. intros a.
  apply grows_bind; [apply grows_spread|]. intros b.
  apply grows_bind; [apply grows_alloc|]. intros merged.
  apply grows_array_map. intros x. apply grows_alloc.
Qed.

Lemma grows_createTransition node flow : grows (Store.createTransition node flow).
Proof.
  unfold Store.createTransition.
  apply grows_bind; [apply grows_alloc|]. intros empty.
  apply grows_bind; [apply grows_read|]. intros found.
  apply grows_bind; [apply grows_or_else_empty|]. intros nodeNext.
  apply grows_bind; [apply grows_read|]. intros [|]; [apply grows_alloc|].
  apply grows_bind; [apply grows_alloc|]. intros empty'.
  apply grows_bind; [apply grows_read|]. intros found'.
  apply grows_bind; [apply grows_or_else_empty|]. intros flowNext.
  apply grows_bind; [apply grows_spread|]. intros a.
  apply grows_bind; [apply grows_spread|]. intros b.
  apply grows_bind; [apply grows_alloc|]. intros merged.
  apply grows_array_map, grows_transition_instruction.
Qed.

Lemma grows_preserves {A} (m : Store.M A) h : grows m -> preserves h (m h).
Proof. intros Hm l o Hl. eapply lookup_weaken; [exact Hl | apply Hm]. Qed.

Lemma simulates_same_outcome {A} (to_value : A -> value) e m1 m2 h1 h2 :
  simulates (holds to_value) e m1 h1 ->
  simulates (holds to_value) e m2 h2 ->
  same_outcome (m1 h1) (m2 h2).
Proof.
  unfold simulates, same_outcome, holds. intros [_ H1] [_ H2].
  destruct e as [a|e], (m1 h1).1, (m2 h2).1; try contradiction.
  - exists (to_value a). split; assumption.
  - congruence.
Qed.
End Growth.

(** C8: compilation has no side effect and its result depends on the
    documents alone.  Whatever the arguments, a call only adds objects to
    the store, so the node, the flow and everything they point at are left
    as they were; and two calls whose nodes hold the same document and
    whose flows hold the same document - in the same store or in two
    different ones - end alike, with the same error or with instruction
    lists that hold the same document. *)
Theorem compilation_is_pure :
  (forall h node flow,
     preserves h (Store.createOnEnter node h)
     /\ preserves h (Store.createOnReceive node flow h)
     /\ preserves h (Store.createTransition node flow h))
  /\ (forall h1 h2 node1 node2 flow1 flow2 tnode tflow,
        Store.represents h1 node1 tnode -> Store.represents h2 node2 tnode ->
        Store.represents h1 flow1 tflow -> Store.represents h2 flow2 tflow ->
        same_outcome (Store.createOnEnter node1 h1) (Store.createOnEnter node2 h2)
        /\ same_outcome (Store.createOnReceive node1 flow1 h1)
                        (Store.createOnReceive node2 flow2 h2)
        /\ same_outcome (Store.createTransition node1 flow1 h1)
                        (Store.createTransition node2 flow2 h2)).
Proof.
  split.
  - intros h node flow. repeat split; apply grows_preserves;
      [apply grows_createOnEnter | apply grows_createOnReceive
      | apply grows_createTransition].
  - intros h1 h2 node1 node2 flow1 flow2 tnode tflow Hn1 Hn2 Hf1 Hf2.
    repeat split.
    + eapply simulates_same_outcome; apply createOnEnter_refines; eassumption.
    + eapply simulates_same_outcome; apply createOnReceive_refines; eassumption.
    + eapply simulates_same_outcome; apply createTransition_refines; eassumption.
Qed.

Ltac represent :=
  repeat first [ reflexivity | split | econstructor ].

Lemma example_heap_node :
  Store.represents example_heap (Store.RRef 0) example_node.
Proof. unfold example_node. represent. Defined.

Lemma example_heap_flow :
  Store.represents example_heap (Store.RRef 5) example_flow.
Proof. unfold example_flow. represent. Defined.

Lemma relocated_heap_node :
  Store.represents relocated_heap (Store.RRef 17) example_node.
Proof. unfold example_node. represent. Defined.

Lemma relocated_heap_flow :
  Store.represents relocated_heap (Store.RRef 12) example_flow.
Proof. unfold example_flow. represent. Defined.

Lemma compilation_is_pure_witness :
  preserves example_heap
    (Store.createTransition (Store.RRef 0) (Store.RRef 5) example_heap)
  /\ same_outcome
       (Store.createOnReceive (Store.RRef 0) (Store.RRef 5) example_heap)
       (Store.createOnReceive (Store.RRef 17) (Store.RRef 12) relocated_heap).
Proof.
  split.
  - exact (proj2 (proj2 (proj1 compilation_is_pure example_heap
                           (Store.RRef 0) (Store.RRef 5)))).
  - exact (proj1 (proj2 (proj2 compilation_is_pure example_heap relocated_heap
             (Store.RRef 0) (Store.RRef 17) (Store.RRef 5) (Store.RRef 12)
             example_node example_flow
             example_heap_node relocated_heap_node
             example_heap_flow relocated_heap_flow))).
Defined.

(** * Further properties of the factory *)

(** ** Edge cases of the three compile functions *)

(** A node that is itself [null] or [undefined] is tolerated by
    [createOnEnter] and [createTransition], which read it through
    [_.get] and answer the empty list, but not by [createOnReceive], which
    reads [node.onReceive] directly and raises a [TypeError]. *)
Theorem missing_node_behaviour node flow :
  nullish node = true ->
  createOnEnter node = Ok []
  /\ createTransition node flow = Ok []
  /\ createOnReceive node flow =
       Throw (TypeError ("Cannot read property 'onReceive' of " +:+
                         (if node is VNull then "null" else "undefined"))).
Proof.
  intros Hn. destruct node; try discriminate Hn; repeat split; reflexivity.
Qed.

Lemma missing_node_behaviour_witness :
  createOnEnter VNull = Ok []
  /\ createTransition VNull example_catch_all_next = Ok []
  /\ createOnReceive VNull example_catch_all_next =
       Throw (TypeError "Cannot read property 'onReceive' of null").
Proof. apply (missing_node_behaviour VNull example_catch_all_next). reflexivity. Defined.

(** The [undefined] result of [createOnReceive] is decided by the
    truthiness of [node.onReceive] alone: it is returned exactly when the
    field is falsy ([undefined], [null], [false], [0] or the empty
    string), and then the flow is not looked at. *)
Theorem createOnReceive_undefined_iff node flow :
  nullish node = false ->
  (createOnReceive node flow = Ok None <-> truthy (prop node "onReceive") = false).
Proof.
  intros Hn. unfold createOnReceive, member. rewrite Hn. simpl.
  destruct (truthy (prop node "onReceive")); simpl; split; try reflexivity;
    try discriminate.
  intros H. do 3 invert_bind H. discriminate H.
Qed.

Lemma createOnReceive_undefined_iff_witness :
  createOnReceive (VObj [("onReceive", VNum 0)]) flow_with_numeric_catch_all
  = Ok None.
Proof.
  apply (createOnReceive_undefined_iff
           (VObj [("onReceive", VNum 0)]) flow_with_numeric_catch_all);
    reflexivity.
Defined.

(** [createOnEnter] raises exactly when [node.onEnter] is truthy and not
    an array - a string, a number, [true] or an object - and the error is
    then the [TypeError] of calling a missing [map]. *)
Theorem createOnEnter_raises_iff node e :
  createOnEnter node = Throw e <->
  (e = TypeError "map is not a function"
   /\ nullish node = false
   /\ truthy (prop node "onEnter") = true
   /\ forall l, prop node "onEnter" <> VArr l).
Proof.
  unfold createOnEnter. rewrite lodash_get_plain by reflexivity.
  destruct (nullish node) eqn:Hn.
  { simpl. split; [discriminate | intros (_ & H & _); discriminate H]. }
  destruct (prop node "onEnter") as [| |b|z|s|l|fs] eqn:E; simpl.
  - split; [discriminate | intros (_ & _ & H & _); discriminate H].
  - split; [discriminate | intros (_ & _ & H & _); discriminate H].
  - destruct b; simpl.
    + split; [intros [= <-]; repeat split; discriminate | intros (-> & _); reflexivity].
    + split; [discriminate | intros (_ & _ & H & _); discriminate H].
  - unfold or_else. simpl. destruct (z =? 0)%Z; simpl.
    + split; [discriminate | intros (_ & _ & H & _); discriminate H].
    + split; [intros [= <-]; repeat split; discriminate | intros (-> & _); reflexivity].
  - unfold or_else. simpl. destruct (String.eqb s ""); simpl.
    + split; [discriminate | intros (_ & _ & H & _); discriminate H].
    + split; [intros [= <-]; repeat split; discriminate | intros (-> & _); reflexivity].
  - rewrite map_outcome_ok. split; [discriminate|].
    intros (_ & _ & _ & H). exfalso. exact (H l eq_refl).
  - split; [intros [= <-]; repeat split; discriminate | intros (-> & _); reflexivity].
Qed.

Lemma createOnEnter_raises_iff_witness :
  createOnEnter (VObj [("onEnter", VStr "sayHi")]) =
    Throw (TypeError "map is not a function").
Proof.
  apply (proj2 (createOnEnter_raises_iff (VObj [("onEnter", VStr "sayHi")]) _)).
  repeat split; discriminate.
Defined.

Lemma map_outcome_raises {A B} (f : A -> outcome B) before x after e :
  (forall y, y ∈ before -> exists b, f y = Ok b) ->
  f x = Throw e ->
  map_outcome f (before ++ x :: after) = Throw e.
Proof.
  intros Hbefore Hx. induction before as [|y before IH]; simpl.
  - rewrite Hx. reflexivity.
  - destruct (Hbefore y) as [b ->]; [apply list_elem_of_here|]. simpl.
    rewrite IH; [reflexivity|].
    intros z Hz. apply Hbefore, list_elem_of_further, Hz.
Qed.

(** Compiling transitions is all or nothing: one entry that is [null] or
    [undefined], among the catch-all transitions of the flow or among the
    node's own, makes [createTransition] raise the [TypeError] of reading
    its [condition], and no instruction is returned for the entries
    before it. *)
Theorem createTransition_null_entry node flow l before x after :
  prop node "next" = VArr l -> l <> [] ->
  list_or_missing (lodash_get flow "catchAll.next" VUndefined) = true ->
  as_list (lodash_get flow "catchAll.next" VUndefined) ++ l
    = before ++ x :: after ->
  Forall (fun y => nullish y = false) before ->
  nullish x = true ->
  createTransition node flow =
    Throw (TypeError ("Cannot read property 'condition' of " +:+
                      (if x is VNull then "null" else "undefined"))).
Proof.
  intros Hl Hne Hc Hsplit Hbefore Hx. unfold createTransition.
  rewrite lodash_get_plain by reflexivity.
  rewrite (prop_is_object node "next") by (rewrite Hl; discriminate).
  rewrite Hl. simpl. rewrite bool_decide_eq_false_2 by exact Hne.
  rewrite (get_or_empty _ _ Hc). simpl. rewrite Hsplit.
  apply map_outcome_raises.
  - intros y Hy. exists (transition_of y). apply transition_instruction_ok.
    rewrite Forall_forall in Hbefore. apply Hbefore, Hy.
  - unfold transition_instruction, member. rewrite Hx. reflexivity.
Qed.

Lemma createTransition_null_entry_witness :
  createTransition
    (VObj [("next", VArr [VObj [("condition", VStr "true")]; VNull])])
    example_catch_all_next
  = Throw (TypeError "Cannot read property 'condition' of null").
Proof.
  apply (createTransition_null_entry _ _
           [VObj [("condition", VStr "true")]; VNull]
           [VObj [("condition", VStr "event.type === 'quit'");
                  ("node", VStr "bye")];
            VObj [("condition", VStr "true")]]
           VNull []).
  - reflexivity.
  - discriminate.
  - reflexivity.
  - reflexivity.
  - repeat constructor.
  - reflexivity.
Defined.

(** ** What the factory allocates and what it shares *)

Lemma subseteq_lookup_None (h h' : Store.heap) l :
  h ⊆ h' -> h' !! l = None -> h !! l = None.
Proof.
  intros Hsub Hl. destruct (h !! l) as [o|] eqn:E; [|reflexivity].
  eapply lookup_weaken in E; [|exact Hsub].
  unfold Store.heap, Store.loc in *. congruence.
Qed.





Lemma map_store_alloc (mk : Store.val -> Store.object) xs : forall h,
  exists rs h',
    Store.map_store (fun x => Store.alloc (mk x)) xs h = (Ok rs, h')
    /\ h ⊆ h'
    /\ Forall2 (fun x r => exists l,
                  r = Store.RRef l /\ h !! l = None /\ h' !! l = Some (mk x))
         xs rs.
Proof.
  induction xs as [|x xs IH]; intros h; simpl.
  - exists [], h. repeat split; [reflexivity | constructor].
  - unfold mbind, Store.M_bind.
    destruct (alloc_fresh (mk x) h) as (l & -> & Hl).
    destruct (IH (<[l:=mk x]> h)) as (rs & h' & -> & Hsub & Hall).
    assert (Hsub0 : h ⊆ <[l:=mk x]> h) by (apply insert_subseteq, Hl).
    exists (Store.RRef l :: rs), h'. split; [reflexivity|].
    split; [etrans; eassumption|]. constructor.
    + exists l. split; [reflexivity|]. split; [exact Hl|].
      eapply lookup_weaken; [apply lookup_insert_eq | exact Hsub].
    + eapply Forall2_impl; [exact Hall|]. intros y r (l' & -> & Hnew & Hthere).
      exists l'. split; [reflexivity|]. split; [|exact Hthere].
      eapply subseteq_lookup_None; eassumption.
Qed.

(** On a node whose [onEnter] is an array, [createOnEnter] returns a new
    array of new objects, one per action, in order; the [fn] field of
    each is the very value found in the node's list: an action that is an
    object is shared with the node, not copied. *)
Theorem createOnEnter_shares_actions h node a xs :
  Store.prop h node "onEnter" = Store.RRef a ->
  h !! a = Some (Store.OArr xs) ->
  exists r rs,
    let h' := (Store.createOnEnter node h).2 in
    (Store.createOnEnter node h).1 = Ok (Store.RRef r)
    /\ h !! r = None
    /\ h' !! r = Some (Store.OArr rs)
    /\ Forall2 (fun x ri => exists l,
                  ri = Store.RRef l /\ h !! l = None
                  /\ h' !! l = Some (Store.OObj [("type", Store.RStr "on-enter");
                                                 ("fn", x)]))
         xs rs.
Proof.
  intros Hprop Ha.
  destruct (alloc_fresh (Store.OArr []) h) as (d & Ed & Hd).
  set (h1 := <[d:=Store.OArr []]> h) in *.
  assert (Hsub1 : h ⊆ h1) by (apply insert_subseteq, Hd).
  assert (Hprop1 : Store.prop h1 node "onEnter" = Store.RRef a).
  { unfold Store.prop, Store.fields_of in *. destruct node; try discriminate Hprop.
    destruct (h !! l) as [[|fs]|] eqn:E; try discriminate Hprop.
    eapply lookup_weaken in E; [|exact Hsub1].
    unfold Store.heap, Store.loc in *. rewrite E. exact Hprop. }
  assert (Hn : Store.nullish node = false).
  { destruct node; try reflexivity; discriminate Hprop. }
  assert (Ha1 : h1 !! a = Some (Store.OArr xs))
    by (eapply lookup_weaken; eassumption).
  destruct (map_store_alloc
              (fun x => Store.OObj [("type", Store.RStr "on-enter"); ("fn", x)])
              xs h1) as (rs & h2 & Emap & Hsub2 & Hall).
  destruct (alloc_fresh (Store.OArr rs) h2) as (r & Er & Hr).
  assert (Hsub3 : h2 ⊆ <[r:=Store.OArr rs]> h2) by (apply insert_subseteq, Hr).
  assert (Erun : Store.createOnEnter node h
                 = (Ok (Store.RRef r), <[r:=Store.OArr rs]> h2)).
  { unfold Store.createOnEnter, mbind, Store.M_bind. rewrite Ed.
    unfold Store.lodash_get, Store.read, Store.castPath, Store.isKey.
    rewrite Hn. simpl. rewrite Hn. fold h1. rewrite Hprop1. simpl.
    unfold Store.array_map, Store.read, mbind, Store.M_bind. simpl.
    fold h1. rewrite Ha1.
    unfold Store.on_enter_instruction. rewrite Emap. exact Er. }
  exists r, rs. rewrite Erun. simpl. split; [reflexivity|].
  split; [eapply subseteq_lookup_None; [|exact Hr]; etrans; eassumption|].
  split; [apply lookup_insert_eq|].
  eapply Forall2_impl; [exact Hall|]. intros x ri (l & -> & Hnew & Hthere).
  exists l. split; [reflexivity|].
  split; [eapply subseteq_lookup_None; eassumption|].
  eapply lookup_weaken; eassumption.
Qed.

(** The two embeddings agree.  Run on a store in which [node] and [flow]
    hold the documents [tnode] and [tflow], each compile function ends as
    it does on the documents: with the same error, or with a reference to
    an array that holds exactly the instructions computed from the
    documents ([undefined] for [undefined]); and it keeps every object
    that was in the store. *)
Theorem factory_on_store_agrees h node flow tnode tflow :
  Store.represents h node tnode -> Store.represents h flow tflow ->
  (agrees instructions_value (createOnEnter tnode) (Store.createOnEnter node h)
   /\ agrees result_value (createOnReceive tnode tflow)
        (Store.createOnReceive node flow h)
   /\ agrees instructions_value (createTransition tnode tflow)
        (Store.createTransition node flow h))
  /\ preserves h (Store.createOnEnter node h)
  /\ preserves h (Store.createOnReceive node flow h)
  /\ preserves h (Store.createTransition node flow h).
Proof.
  intros Hn Hf.
  pose proof (createOnEnter_refines h node tnode Hn) as [S1 A1].
  pose proof (createOnReceive_refines h node flow tnode tflow Hn Hf) as [S2 A2].
  pose proof (createTransition_refines h node flow tnode tflow Hn Hf) as [S3 A3].
  split; [split; [exact A1 | split; [exact A2 | exact A3]]|].
  split; [|split]; intros l o Hl; eapply lookup_weaken; eassumption.
Qed.

Lemma factory_on_store_agrees_witness :
  agrees result_value (createOnReceive example_node example_flow)
    (Store.createOnReceive (Store.RRef 0) (Store.RRef 5) example_heap).
Proof.
  exact (proj1 (proj2 (proj1 (factory_on_store_agrees example_heap
           (Store.RRef 0) (Store.RRef 5) example_node example_flow
           example_heap_node example_heap_flow)))).
Defined.

(** * Further properties of the Botpress wiring *)

(** ** The format of processing errors *)

Lemma single_line_cons c s :
  Botpress.single_line (String c s) = true ->
  c <> "010"%char /\ Botpress.single_line s = true.
Proof.
  unfold Botpress.single_line. simpl. intros [Hc Hs]%andb_true_iff.
  split; [|exact Hs]. intros ->. discriminate Hc.
Qed.

(** A line that ends at the first line feed is read back without
    ambiguity. *)
Lemma line_split a1 a2 b1 b2 :
  Botpress.single_line a1 = true -> Botpress.single_line a2 = true ->
  a1 +:+ String "010" b1 = a2 +:+ String "010" b2 ->
  a1 = a2 /\ b1 = b2.
Proof.
  revert a2. induction a1 as [|c a1 IH]; intros [|c2 a2] H1 H2 E.
  - injection E as ->. split; reflexivity.
  - apply single_line_cons in H2 as [Hc _]. injection E as E _.
    exfalso. apply Hc. symmetry. exact E.
  - apply single_line_cons in H1 as [Hc _]. injection E as E _.
    exfalso. apply Hc. exact E.
  - apply single_line_cons in H1 as [_ H1].
    apply single_line_cons in H2 as [_ H2].
    injection E as -> E. destruct (IH a2 H1 H2 E) as [-> ->].
    split; reflexivity.
Qed.

(** The same for a line closed by a double quote before the line feed. *)
Lemma quoted_line_split a1 a2 b1 b2 :
  Botpress.single_line a1 = true -> Botpress.single_line a2 = true ->
  a1 +:+ String "034" (String "010" b1) = a2 +:+ String "034" (String "010" b2) ->
  a1 = a2 /\ b1 = b2.
Proof.
  revert a2. induction a1 as [|c a1 IH]; intros [|c2 a2] H1 H2 E.
  - injection E as ->. split; reflexivity.
  - apply single_line_cons in H2 as [_ H2]. injection E as _ E.
    destruct a2 as [|c3 a2]; [discriminate E|].
    apply single_line_cons in H2 as [Hc _]. injection E as E _.
    exfalso. apply Hc. symmetry. exact E.
  - apply single_line_cons in H1 as [_ H1]. injection E as _ E.
    destruct a1 as [|c3 a1]; [discriminate E|].
    apply single_line_cons in H1 as [Hc _]. injection E as E _.
    exfalso. apply Hc. exact E.
  - apply single_line_cons in H1 as [_ H1].
    apply single_line_cons in H2 as [_ H2].
    injection E as -> E. destruct (IH a2 H1 H2 E) as [-> ->].
    split; reflexivity.
Qed.

(** The message of [formatError] can be read back: two errors whose
    instruction, message and flow name hold no line feed and that are
    formatted alike have the same instruction, message, flow name and node
    name. *)
Theorem formatError_unambiguous (e1 e2 : Botpress.ProcessingError) :
  Botpress.single_line (Botpress.instruction e1) = true ->
  Botpress.single_line (Botpress.message e1) = true ->
  Botpress.single_line (Botpress.flowName e1) = true ->
  Botpress.single_line (Botpress.instruction e2) = true ->
  Botpress.single_line (Botpress.message e2) = true ->
  Botpress.single_line (Botpress.flowName e2) = true ->
  Botpress.formatError e1 = Botpress.formatError e2 ->
  Botpress.instruction e1 = Botpress.instruction e2
  /\ Botpress.message e1 = Botpress.message e2
  /\ Botpress.flowName e1 = Botpress.flowName e2
  /\ Botpress.nodeName e1 = Botpress.nodeName e2.
Proof.
  intros Hi1 Hm1 Hf1 Hi2 Hm2 Hf2 E. unfold Botpress.formatError in E.
  apply (inj (String.append "Error processing ")) in E.
  apply (inj (String.append Botpress.double_quote)) in E.
  apply quoted_line_split in E as [Ei E]; [|assumption..].
  apply (inj (String.append "Err: ")) in E.
  apply line_split in E as [Em E]; [|assumption..].
  apply (inj (String.append "Flow: ")) in E.
  apply line_split in E as [Ef E]; [|assumption..].
  apply (inj (String.append "Node: ")) in E.
  repeat split; assumption.
Qed.

(** ** Start-up *)

Section StartupFacts.
Variable respond : Botpress.Invocation -> list Botpress.Step -> outcome value.
Variables assets ui_admin ui_studio : string.

Lemma invoke_run c p :
  (exists v, respond c (Botpress.steps p) = Ok v
     /\ Botpress.invoke respond c p =
        (Ok v, {| Botpress.steps :=
                    Botpress.steps p ++ [Botpress.Called c; Botpress.Returned c v];
                  Botpress.JWT_SECRET := Botpress.JWT_SECRET p |}))
  \/ (exists e, respond c (Botpress.steps p) = Throw e
     /\ Botpress.invoke respond c p =
        (Throw e, {| Botpress.steps :=
                       Botpress.steps p ++ [Botpress.Called c; Botpress.Raised c e];
                     Botpress.JWT_SECRET := Botpress.JWT_SECRET p |})).
Proof.
  unfold Botpress.invoke. destruct (respond c (Botpress.steps p)); eauto.
Qed.

(** One call of [deployAssets], by cases on what the file system
    answers. *)
Ltac run_invoke :=
  match goal with
  | |- context [Botpress.invoke respond ?c ?p] =>
      let v := fresh "v" in
      let e := fresh "e" in
      let E := fresh "E" in
      destruct (invoke_run c p) as [(v & _ & E) | (e & _ & E)];
      rewrite E; clear E; cbn [Botpress.steps Botpress.JWT_SECRET]
  end.

Ltac in_cases H :=
  repeat (apply elem_of_app in H as [H|H]);
  repeat (apply elem_of_cons in H as [H|H]; [try discriminate H|]);
  try (apply elem_of_nil in H; destruct H).



(** A secret that is configured is used as it is: [checkJwtSecret] puts
    it in [process.JWT_SECRET] and does nothing else - no key is
    generated, the configuration is not rewritten, nothing is logged. *)
Theorem checkJwtSecret_keeps_configured_secret config p :
  truthy (prop config "jwtSecret") = true ->
  Botpress.checkJwtSecret respond config p =
    (Ok tt, {| Botpress.steps := Botpress.steps p;
               Botpress.JWT_SECRET := prop config "jwtSecret" |}).
Proof.
  intros H. unfold Botpress.checkJwtSecret, Botpress.evaluate, member, mbind,
    Botpress.task_bind.
  assert (nullish config = false) as ->.
  { destruct config; try reflexivity; discriminate H. }
  rewrite H. reflexivity.
Qed.

(** Without a configured secret, a run that succeeds has asked [nanoid]
    for a key of 40 characters, merged that very key into the
    configuration, logged one warning, and put the key in
    [process.JWT_SECRET]; a run that fails leaves [process.JWT_SECRET] as
    it was. *)
Theorem checkJwtSecret_generates_secret config p :
  truthy (prop config "jwtSecret") = false ->
  let run := Botpress.checkJwtSecret respond config p in
  match run.1 with
  | Ok _ =>
      exists secret v,
        Botpress.steps run.2 =
          Botpress.steps p ++
          [Botpress.Called (Botpress.nanoid 40);
           Botpress.Returned (Botpress.nanoid 40) secret;
           Botpress.Called
             (Botpress.mergeBotpressConfig (VObj [("jwtSecret", secret)]));
           Botpress.Returned
             (Botpress.mergeBotpressConfig (VObj [("jwtSecret", secret)])) v;
           Botpress.Logged "warn"
             "JWT Secret isn't defined. Generating a random key..." None]
        /\ Botpress.JWT_SECRET run.2 = secret
  | Throw _ => Botpress.JWT_SECRET run.2 = Botpress.JWT_SECRET p
  end.
Proof.
  intros H run. subst run.
  unfold Botpress.checkJwtSecret, Botpress.evaluate, member, mbind,
    Botpress.task_bind, mret, Botpress.task_ret, Botpress.log,
    Botpress.set_JWT_SECRET.
  destruct (nullish config); [reflexivity|]. rewrite H. simpl.
  run_invoke; [|reflexivity].
  run_invoke; [|reflexivity].
  simpl. exists v, v0. rewrite <- !app_assoc. split; reflexivity.
Qed.

(** The server is only announced ready once it has started: [setDone] is
    called with [HTTP_SERVER_READY] after [httpServer.start] has
    returned, and not at all when that fails. *)
Theorem startServer_ready_after_start p new :
  let run := Botpress.startServer respond p in
  Botpress.steps run.2 = Botpress.steps p ++ new ->
  Botpress.Called (Botpress.setDone "HTTP_SERVER_READY") ∈ new ->
  exists v rest,
    new = Botpress.Called Botpress.httpServer_start
          :: Botpress.Returned Botpress.httpServer_start v
          :: Botpress.Called (Botpress.setDone "HTTP_SERVER_READY") :: rest.
Proof.
  intros run Hnew Hin. subst run. revert Hnew.
  unfold Botpress.startServer, mbind, Botpress.task_bind, mret,
    Botpress.task_ret.
  run_invoke.
  2:{ intros <-%app_inv_head. in_cases Hin. }
  run_invoke; rewrite <- !app_assoc; intros <-%app_inv_head; eauto.
Qed.

Lemma calls_app l1 l2 :
  Botpress.calls (l1 ++ l2) = Botpress.calls l1 ++ Botpress.calls l2.
Proof. apply omap_app. Qed.

(** The loop of [discoverBots]: bots are mounted in the order of the
    list, one after the other, until one fails. *)
Lemma mount_loop bots : forall p,
  let run := Botpress.for_each bots
               (fun bot => Botpress.invoke respond (Botpress.mountBot bot)) p in
  exists new mounted skipped,
    Botpress.steps run.2 = Botpress.steps p ++ new
    /\ bots = mounted ++ skipped
    /\ Botpress.calls new = map Botpress.mountBot mounted
    /\ match run.1 with
       | Ok _ => skipped = []
       | Throw e =>
           exists bot, last mounted = Some bot
             /\ last new = Some (Botpress.Raised (Botpress.mountBot bot) e)
       end.
Proof.
  induction bots as [|bot bots IH]; intros p; simpl.
  - exists [], [], []. rewrite app_nil_r. repeat split.
  - unfold mbind, Botpress.task_bind.
    destruct (invoke_run (Botpress.mountBot bot) p)
      as [(v & _ & E) | (e & _ & E)]; rewrite E; clear E.
    + match goal with
      | |- context [Botpress.for_each _ _ ?q] => destruct (IH q)
          as (new & mounted & skipped & Hsteps & -> & Hcalls & Hend)
      end.
      simpl in Hsteps.
      exists ([Botpress.Called (Botpress.mountBot bot);
               Botpress.Returned (Botpress.mountBot bot) v] ++ new),
        (bot :: mounted), skipped.
      split; [rewrite Hsteps, <- app_assoc; reflexivity|].
      split; [reflexivity|].
      split; [simpl; rewrite Hcalls; reflexivity|].
      destruct (Botpress.for_each _ _ _).1 as [[]|e']; [exact Hend|].
      destruct Hend as (b & Hlast & Hraised). exists b.
      destruct mounted as [|m mounted]; [discriminate Hlast|].
      split; [exact Hlast|].
      destruct new as [|s new]; [discriminate Hraised|]. exact Hraised.
    + exists [Botpress.Called (Botpress.mountBot bot);
              Botpress.Raised (Botpress.mountBot bot) e], [bot], bots.
      repeat split. exists bot. split; reflexivity.
Qed.

(** [discoverBots] asks for the bot ids once and mounts the bots in the
    order of the answer.  It stops at the first bot that fails to mount:
    the bots after it are not mounted, and the failure is the result. *)
Theorem discoverBots_mounts_in_order p ids :
  respond Botpress.getAllBotIds (Botpress.steps p) = Ok (VArr ids) ->
  let run := Botpress.discoverBots respond p in
  exists new mounted skipped,
    Botpress.steps run.2 = Botpress.steps p ++ new
    /\ ids = mounted ++ skipped
    /\ Botpress.calls new =
         Botpress.getAllBotIds :: map Botpress.mountBot mounted
    /\ match run.1 with
       | Ok _ => skipped = []
       | Throw e =>
           exists bot, last mounted = Some bot
             /\ last new = Some (Botpress.Raised (Botpress.mountBot bot) e)
       end.
Proof.
  intros Hids run. subst run.
  unfold Botpress.discoverBots, mbind, Botpress.task_bind, Botpress.evaluate.
  destruct (invoke_run Botpress.getAllBotIds p)
    as [(v & Hv & E) | (e & He & E)]; rewrite E; clear E; [|congruence].
  assert (v = VArr ids) as -> by congruence. simpl.
  match goal with
  | |- context [Botpress.for_each _ _ ?q] => destruct (mount_loop ids q)
      as (new & mounted & skipped & Hsteps & -> & Hcalls & Hend)
  end.
  simpl in Hsteps.
  exists ([Botpress.Called Botpress.getAllBotIds;
           Botpress.Returned Botpress.getAllBotIds (VArr (mounted ++ skipped))]
          ++ new), mounted, skipped.
  split; [rewrite Hsteps, <- app_assoc; reflexivity|].
  split; [reflexivity|].
  split; [simpl; rewrite Hcalls; reflexivity|].
  destruct (Botpress.for_each _ _ _).1 as [[]|e']; [exact Hend|].
  destruct Hend as (b & Hlast & Hraised). exists b. split; [exact Hlast|].
  destruct new as [|s new]; [discriminate Hraised|]. exact Hraised.
Qed.
End StartupFacts.

(** ** Incoming events that fail *)

Section IncomingEventFailures.
Context {Event SessionId : Type}.
Variable target : Event -> string.
Variable createIdFromEvent : Event -> SessionId.
Variable settle :
  @Botpress.Call Event SessionId ->
  list (@Botpress.Observation Event SessionId) -> outcome Event.

(** The done notification of an incoming event is emitted exactly when
    both the after-incoming-middleware hook and the decision engine have
    resolved: when either rejects, the handler rejects and no done event
    is sent for that event. *)
Theorem done_emitted_iff (event : Event) seen new :
  let hook := Botpress.ExecuteHook (Botpress.AfterIncomingMiddleware event) in
  (Botpress.onAfterIncomingMiddleware target createIdFromEvent settle
     event seen).2 = seen ++ new ->
  ((exists name ev, Botpress.Invoked (Botpress.EmitAsync name ev) ∈ new)
   <->
   (exists event1 event2,
      settle hook seen = Ok event1
      /\ settle (Botpress.ProcessEvent (createIdFromEvent event1) event1)
           (seen ++ [Botpress.Invoked hook; Botpress.Resolved hook])
         = Ok event2)).
Proof.
  intros hook.
  unfold Botpress.onAfterIncomingMiddleware, mbind, Botpress.async_bind,
    Botpress.await. fold hook.
  destruct (settle hook seen) as [event1|e] eqn:H1.
  2:{ intros <-%app_inv_head. split.
      - intros (name & ev & Hin).
        repeat (apply elem_of_cons in Hin as [Hin|Hin]; [discriminate Hin|]).
        apply elem_of_nil in Hin as [].
      - intros (event1 & event2 & H & _). discriminate H. }
  destruct (settle (Botpress.ProcessEvent _ event1) _) as [event2|e] eqn:H2.
  2:{ rewrite <- app_assoc. intros <-%app_inv_head. split.
      - intros (name & ev & Hin).
        repeat (apply elem_of_app in Hin as [Hin|Hin]);
        repeat (apply elem_of_cons in Hin as [Hin|Hin]; [discriminate Hin|]);
        apply elem_of_nil in Hin as [].
      - intros (ev1 & ev2 & [= <-] & H). rewrite H in H2. discriminate H2. }
  assert (Hdone : forall last,
            exists name ev,
              Botpress.Invoked (Botpress.EmitAsync name ev)
              ∈ [Botpress.Invoked hook; Botpress.Resolved hook] ++
                [Botpress.Invoked
                   (Botpress.ProcessEvent (createIdFromEvent event1) event1);
                 Botpress.Resolved
                   (Botpress.ProcessEvent (createIdFromEvent event1) event1)] ++
                [Botpress.Invoked
                   (Botpress.EmitAsync ("done." +:+ target event2) event2);
                 last]).
  { intros last. eexists _, _. do 4 apply list_elem_of_further.
    apply list_elem_of_here. }
  destruct (settle (Botpress.EmitAsync _ event2) _) as [event3|e];
    simpl; rewrite <- !app_assoc; intros <-%app_inv_head;
    (split; [intros _; eauto | intros _; apply Hdone]).
Qed.
End IncomingEventFailures.

(** * Examples of the further properties *)

Lemma createOnEnter_shares_actions_witness :
  exists r rs,
    let h' := (Store.createOnEnter (Store.RRef 0) example_heap).2 in
    (Store.createOnEnter (Store.RRef 0) example_heap).1 = Ok (Store.RRef r)
    /\ example_heap !! r = None
    /\ h' !! r = Some (Store.OArr rs)
    /\ Forall2 (fun x ri => exists l,
                  ri = Store.RRef l /\ example_heap !! l = None
                  /\ h' !! l = Some (Store.OObj [("type", Store.RStr "on-enter");
                                                 ("fn", x)]))
         [Store.RStr "sayHi"] rs.
Proof.
  exact (createOnEnter_shares_actions example_heap (Store.RRef 0) 1%nat
           [Store.RStr "sayHi"] eq_refl eq_refl).
Defined.

Lemma formatError_unambiguous_witness :
  Botpress.instruction Botpress.example_error
    = Botpress.instruction Botpress.example_error
  /\ Botpress.message Botpress.example_error
     = Botpress.message Botpress.example_error
  /\ Botpress.flowName Botpress.example_error
     = Botpress.flowName Botpress.example_error
  /\ Botpress.nodeName Botpress.example_error
     = Botpress.nodeName Botpress.example_error.
Proof.
  apply (formatError_unambiguous Botpress.example_error Botpress.example_error);
    reflexivity.
Defined.


Lemma checkJwtSecret_keeps_configured_secret_witness :
  Botpress.checkJwtSecret Botpress.example_services
    (VObj [("jwtSecret", VStr "s3cret")]) Botpress.fresh_process
  = (Ok tt, {| Botpress.steps := []; Botpress.JWT_SECRET := VStr "s3cret" |}).
Proof.
  apply (checkJwtSecret_keeps_configured_secret Botpress.example_services
           (VObj [("jwtSecret", VStr "s3cret")]) Botpress.fresh_process).
  reflexivity.
Defined.

Lemma checkJwtSecret_generates_secret_witness :
  exists secret v,
    Botpress.steps
      (Botpress.checkJwtSecret Botpress.example_services
         (VObj [("jwtSecret", VStr "")]) Botpress.fresh_process).2 =
      [Botpress.Called (Botpress.nanoid 40);
       Botpress.Returned (Botpress.nanoid 40) secret;
       Botpress.Called
         (Botpress.mergeBotpressConfig (VObj [("jwtSecret", secret)]));
       Botpress.Returned
         (Botpress.mergeBotpressConfig (VObj [("jwtSecret", secret)])) v;
       Botpress.Logged "warn"
         "JWT Secret isn't defined. Generating a random key..." None]
    /\ Botpress.JWT_SECRET
         (Botpress.checkJwtSecret Botpress.example_services
            (VObj [("jwtSecret", VStr "")]) Botpress.fresh_process).2
       = secret.
Proof.
  exact (checkJwtSecret_generates_secret Botpress.example_services
           (VObj [("jwtSecret", VStr "")]) Botpress.fresh_process eq_refl).
Defined.

Lemma startServer_ready_after_start_witness :
  exists v rest,
    Botpress.steps
      (Botpress.startServer Botpress.example_services Botpress.fresh_process).2
    = Botpress.Called Botpress.httpServer_start
      :: Botpress.Returned Botpress.httpServer_start v
      :: Botpress.Called (Botpress.setDone "HTTP_SERVER_READY") :: rest.
Proof.
  apply (startServer_ready_after_start Botpress.example_services
           Botpress.fresh_process).
  - reflexivity.
  - do 2 apply list_elem_of_further. apply list_elem_of_here.
Defined.

Lemma discoverBots_mounts_in_order_witness :
  exists new mounted skipped,
    Botpress.steps
      (Botpress.discoverBots Botpress.example_services Botpress.fresh_process).2
    = [] ++ new
    /\ [VStr "welcome"; VStr "support"] = mounted ++ skipped
    /\ Botpress.calls new =
         Botpress.getAllBotIds :: map Botpress.mountBot mounted
    /\ match (Botpress.discoverBots Botpress.example_services
                Botpress.fresh_process).1 with
       | Ok _ => skipped = []
       | Throw e =>
           exists bot, last mounted = Some bot
             /\ last new = Some (Botpress.Raised (Botpress.mountBot bot) e)
       end.
Proof.
  exact (discoverBots_mounts_in_order Botpress.example_services
           Botpress.fresh_process [VStr "welcome"; VStr "support"] eq_refl).
Defined.

Lemma done_emitted_iff_witness :
  let settle := fun (_ : @Botpress.Call string string)
                    (_ : list (@Botpress.Observation string string)) =>
                  Ok "hello" in
  let new := (Botpress.onAfterIncomingMiddleware id id settle "hello" []).2 in
  (exists name ev, Botpress.Invoked (Botpress.EmitAsync name ev) ∈ new)
  <->
  (exists event1 event2 : string,
     settle (Botpress.ExecuteHook (Botpress.AfterIncomingMiddleware "hello")) []
       = Ok event1
     /\ settle (Botpress.ProcessEvent (id event1) event1)
          ([] ++ [Botpress.Invoked
                    (Botpress.ExecuteHook
                       (Botpress.AfterIncomingMiddleware "hello"));
                  Botpress.Resolved
                    (Botpress.ExecuteHook
                       (Botpress.AfterIncomingMiddleware "hello"))])
        = Ok event2).
Proof.
  intros settle new.
  apply (done_emitted_iff id id settle "hello" [] new). reflexivity.
Defined.
